(** * The application state of the company finder (client/src/App.tsx)

    A shallow embedding of the state management of the [App] component:
    the React state cells, the three fetch operations, the bookmark toggle,
    the filter effect and the intersection observer that drives the
    infinite scroll.

    Conventions of the embedding.
    - A JavaScript string is the list of its UTF-16 code units.
    - Code that calls state setters is written in a small state-and-exception
      monad [M]; [try]/[catch]/[finally] is a combinator of that monad.
    - An [async] function is split at its first [await]: the part that runs
      at the call ([fetchCompanies]) records the request as in flight, the
      continuation ([fetchCompanies_resume]) runs when the browser delivers
      the outcome of the request.  Several requests may be in flight.
    - One [step] of the application handles one browser event, commits the
      render (which re-attaches the ref callback of the last card), runs the
      effects whose dependencies changed and commits again.  *)

From Stdlib Require Import String Ascii NArith List.
From stdpp Require Import base decidable option list gmap.

Local Open Scope N_scope.
Local Open Scope list_scope.

(** ** JavaScript strings *)

Abbreviation jsstring := (list N).

(** A literal of ASCII characters as code units. *)
Definition js (s : string) : jsstring :=
  map N_of_ascii (list_ascii_of_string s).

(** [WhiteSpace] and [LineTerminator] of ECMAScript, the code units that
    [String.prototype.trim] removes. *)
Definition is_js_whitespace (c : N) : bool :=
  (c =? 0x0009) || (c =? 0x000A) || (c =? 0x000B) || (c =? 0x000C)
  || (c =? 0x000D) || (c =? 0x0020) || (c =? 0x00A0) || (c =? 0x1680)
  || ((0x2000 <=? c) && (c <=? 0x200A))
  || (c =? 0x2028) || (c =? 0x2029) || (c =? 0x202F) || (c =? 0x205F)
  || (c =? 0x3000) || (c =? 0xFEFF).

Fixpoint trimStart (s : jsstring) : jsstring :=
  match s with
  | c :: s' => if is_js_whitespace c then trimStart s' else s
  | [] => []
  end.

Definition trimEnd (s : jsstring) : jsstring :=
  rev (trimStart (rev s)).

(** [s.trim()] *)
Definition trim (s : jsstring) : jsstring := trimEnd (trimStart s).

(** Truthiness of a string: only the empty string is falsy. *)
Definition truthy (s : jsstring) : bool :=
  match s with [] => false | _ :: _ => true end.

(** ** Data model *)

(** Modelled from the spec: the type [Company] of types/Company is not part
    of the sources at hand; the spec describes it as a record with an
    identifier and displayed fields.  [App] reads only [id]. *)
Module Company.
Record t := mk {
  id : jsstring;
  name : jsstring;
  location : jsstring
}.
End Company.


(** types/SearchFIlters, as initialised at [useState<SearchFilters>]. *)
Record SearchFilters := mkFilters {
  search : jsstring;
  location : jsstring
}.

(** The user object of [useAuth]; [App] reads [name] and
    [profile_picture]. *)
Module User.
Record t := mk {
  name : jsstring;
  profile_picture : jsstring
}.
End User.

#[global] Instance User_eq_dec : EqDecision User.t.
Proof. solve_decision. Defined.

Inductive Page := home | bookmarks.

#[global] Instance Page_eq_dec : EqDecision Page.
Proof. solve_decision. Defined.

(** The body of a reply of [GET /search]. *)
Module Data.
Record t := mk {
  companiesData : list Company.t;
  nextCursor : option jsstring;
  hasMore : bool
}.
End Data.

(** ** The query of [fetchCompanies] *)

(** The name-value pairs of a [URLSearchParams], in order. *)
Abbreviation URLSearchParams := (list (string * jsstring)).

(** [...(currentCursor && { cursor: currentCursor })]: spreading [null] or
    the empty string adds no property. *)
Definition spread_cursor (currentCursor : option jsstring)
    : list (string * jsstring) :=
  match currentCursor with
  | Some c => if truthy c then [("cursor"%string, c)] else []
  | None => []
  end.

(** [...(value.trim() && { key: value.trim() })] *)
Definition spread_trimmed (key : string) (value : jsstring)
    : list (string * jsstring) :=
  if truthy (trim value) then [(key, trim value)] else [].

(** The object literal given to [new URLSearchParams]. *)
Definition search_object (currentCursor : option jsstring)
    (searchTerm locationFilter : jsstring) : list (string * jsstring) :=
  [("limit"%string, js "20")]
    ++ spread_cursor currentCursor
    ++ spread_trimmed "search" searchTerm
    ++ spread_trimmed "location" locationFilter.

(** The surrogate code units: the first and the second of a pair. *)
Definition is_high_surrogate (c : N) : bool :=
  (0xD800 <=? c) && (c <=? 0xDBFF).

Definition is_low_surrogate (c : N) : bool :=
  (0xDC00 <=? c) && (c <=? 0xDFFF).

(** The conversion of a string to a scalar value string, which
    [new URLSearchParams] applies to the values it is given: a surrogate
    that is not part of a pair becomes U+FFFD. *)
Fixpoint toUSVString (s : jsstring) : jsstring :=
  match s with
  | [] => []
  | c :: s' =>
      if is_high_surrogate c then
        match s' with
        | d :: s'' =>
            if is_low_surrogate d then c :: d :: toUSVString s''
            else 0xFFFD :: toUSVString s'
        | [] => [0xFFFD]
        end
      else if is_low_surrogate c then 0xFFFD :: toUSVString s'
      else c :: toUSVString s'
  end.

(** Every surrogate of the string is part of a pair. *)
Fixpoint well_paired (s : jsstring) : bool :=
  match s with
  | [] => true
  | c :: s' =>
      if is_high_surrogate c then
        match s' with
        | d :: s'' => is_low_surrogate d && well_paired s''
        | [] => false
        end
      else negb (is_low_surrogate c) && well_paired s'
  end.

(** [new URLSearchParams(init)] for an object [init]: its properties in
    order, the values as scalar value strings (the names used here are
    ASCII and are kept). *)
Definition new_URLSearchParams (init : list (string * jsstring))
    : URLSearchParams :=
  (λ kv, (kv.1, toUSVString kv.2)) <$> init.

Definition search_params (currentCursor : option jsstring)
    (searchTerm locationFilter : jsstring) : URLSearchParams :=
  new_URLSearchParams
    (search_object currentCursor searchTerm locationFilter).

(** [params.get(key)]: the value of the first pair named [key]. *)
Fixpoint params_get (key : string) (p : URLSearchParams) : option jsstring :=
  match p with
  | [] => None
  | (k, v) :: p' => if String.eqb k key then Some v else params_get key p'
  end.

(** ** Requests and their outcomes *)

(** A request of the component that has been sent and not yet answered.
    A search is [fetch(`${API_BASE}/search?${params}`)], named here by its
    parameters, together with the [resetList] of the call of
    [fetchCompanies] that awaits it. *)
Inductive Request :=
| SearchRequest (resetList : bool) (params : URLSearchParams)
| LocationsRequest     (* [fetch(`${API_BASE}/locations`)] *)
| BookmarksRequest     (* [axios.get(`${API_BASE}/bookmarks`, ...)] *)
| AuthRequest.         (* the session check of [useAuth] *)

#[global] Instance Request_eq_dec : EqDecision Request.
Proof. solve_decision. Defined.

(** What a rejected promise carries. *)
Inductive JsError :=
| NetworkError   (* [fetch] or [axios.get] could not reach the server *)
| SyntaxError    (* [res.json()] could not parse the body *)
| HttpError.     (* [axios.get] received a status outside 2xx *)

(** The outcome of awaiting a request and the parsing of its body. *)
Inductive Outcome (A : Type) :=
| Resolved (a : A)
| Rejected (e : JsError).
Arguments Resolved {A} a.
Arguments Rejected {A} e.

Inductive Reply :=
| SearchReply (o : Outcome Data.t)
| LocationsReply (o : Outcome (list jsstring))    (* [data.locations] *)
| BookmarksReply (o : Outcome (list jsstring))
    (* [res.data.bookmarkedCompanyIds] *)
| AuthReply (u : option User.t).

(** ** The intersection observer *)

(** The observer held in [observer.current]: the values its callback closed
    over, and the node it observes (named by the key of the card). *)
Record IntersectionObserver := mkObserver {
  seen_hasMore : bool;
  seen_cursor : option jsstring;
  seen_search : jsstring;
  seen_location : jsstring;
  target : option jsstring
}.

(** ** Application state *)

Record AppState := mkApp {
  (* useState *)
  currentPage : Page;
  companies : list Company.t;
  bookmarkedIds : gset (list N);
  locations : list jsstring;
  loading : bool;
  cursor : option jsstring;
  hasMore : bool;
  filters : SearchFilters;
  showLoginDialog : bool;
  (* useAuth, useDebounce *)
  user : option User.t;
  debouncedSearch : jsstring;
  (* useRef *)
  observer : option IntersectionObserver;
  (* the browser: requests in flight, oldest first, and the console *)
  inflight : list Request;
  console : list string
}.

(** The state at the first render. *)
Definition initial : AppState :=
  {| currentPage := home; companies := []; bookmarkedIds := ∅;
     locations := []; loading := false; cursor := None; hasMore := true;
     filters := {| search := []; location := [] |};
     showLoginDialog := false; user := None; debouncedSearch := [];
     observer := None; inflight := []; console := [] |}.

(** ** The monad of handlers: state and exceptions *)

Inductive Completion (A : Type) :=
| Normal (a : A)
| Throw (e : JsError).
Arguments Normal {A} a.
Arguments Throw {A} e.

Definition M (A : Type) : Type := AppState → Completion A * AppState.

Definition ret {A} (a : A) : M A := λ st, (Normal a, st).

Definition throw {A} (e : JsError) : M A := λ st, (Throw e, st).

Definition bind {A B} (m : M A) (k : A → M B) : M B :=
  λ st, match m st with
        | (Normal a, st') => k a st'
        | (Throw e, st') => (Throw e, st')
        end.

Declare Scope handler_scope.
Delimit Scope handler_scope with handler.
Notation "'let!' x ':=' m 'in' k" := (bind m (λ x, k))
  (at level 10, x name, m at level 100, k at level 200) : handler_scope.
Notation "m '>>' k" := (bind m (λ _, k))
  (at level 100, k at level 200, right associativity) : handler_scope.
Local Open Scope handler_scope.

(** [try { body } catch (error) { handler error } finally { final }] *)
Definition try_catch_finally {A} (body : M A) (handler : JsError → M A)
    (final : M unit) : M A :=
  λ st,
    let '(r1, st1) := body st in
    let '(r2, st2) :=
      match r1 with
      | Normal a => (Normal a, st1)
      | Throw e => handler e st1
      end in
    match final st2 with
    | (Normal _, st3) => (r2, st3)
    | (Throw e, st3) => (Throw e, st3)
    end.

(** [try { body } catch (error) { handler error }] *)
Definition try_catch {A} (body : M A) (handler : JsError → M A) : M A :=
  try_catch_finally body handler (ret tt).

(** [await p]: the value of the promise, or its rejection thrown. *)
Definition await {A} (o : Outcome A) : M A :=
  match o with
  | Resolved a => ret a
  | Rejected e => throw e
  end.

(** The state a handler leaves behind. *)
Definition exec {A} (m : M A) (st : AppState) : AppState := snd (m st).

(** How a handler completes. *)
Definition completion {A} (m : M A) (st : AppState) : Completion A :=
  fst (m st).

(** ** State setters *)

Definition setCurrentPage (p : Page) : M unit := λ st,
  (Normal tt,
   {| currentPage := p; companies := companies st;
      bookmarkedIds := bookmarkedIds st; locations := locations st;
      loading := loading st; cursor := cursor st; hasMore := hasMore st;
      filters := filters st; showLoginDialog := showLoginDialog st;
      user := user st; debouncedSearch := debouncedSearch st;
      observer := observer st; inflight := inflight st;
      console := console st |}).

(** [setCompanies((prev) => f prev)] *)
Definition setCompanies (f : list Company.t → list Company.t) : M unit :=
  λ st,
  (Normal tt,
   {| currentPage := currentPage st; companies := f (companies st);
      bookmarkedIds := bookmarkedIds st; locations := locations st;
      loading := loading st; cursor := cursor st; hasMore := hasMore st;
      filters := filters st; showLoginDialog := showLoginDialog st;
      user := user st; debouncedSearch := debouncedSearch st;
      observer := observer st; inflight := inflight st;
      console := console st |}).

(** [setBookmarkedIds((prev) => f prev)] *)
Definition setBookmarkedIds (f : gset (list N) → gset (list N)) : M unit :=
  λ st,
  (Normal tt,
   {| currentPage := currentPage st; companies := companies st;
      bookmarkedIds := f (bookmarkedIds st); locations := locations st;
      loading := loading st; cursor := cursor st; hasMore := hasMore st;
      filters := filters st; showLoginDialog := showLoginDialog st;
      user := user st; debouncedSearch := debouncedSearch st;
      observer := observer st; inflight := inflight st;
      console := console st |}).

Definition setLocations (l : list jsstring) : M unit := λ st,
  (Normal tt,
   {| currentPage := currentPage st; companies := companies st;
      bookmarkedIds := bookmarkedIds st; locations := l;
      loading := loading st; cursor := cursor st; hasMore := hasMore st;
      filters := filters st; showLoginDialog := showLoginDialog st;
      user := user st; debouncedSearch := debouncedSearch st;
      observer := observer st; inflight := inflight st;
      console := console st |}).

Definition setLoading (b : bool) : M unit := λ st,
  (Normal tt,
   {| currentPage := currentPage st; companies := companies st;
      bookmarkedIds := bookmarkedIds st; locations := locations st;
      loading := b; cursor := cursor st; hasMore := hasMore st;
      filters := filters st; showLoginDialog := showLoginDialog st;
      user := user st; debouncedSearch := debouncedSearch st;
      observer := observer st; inflight := inflight st;
      console := console st |}).

Definition setCursor (c : option jsstring) : M unit := λ st,
  (Normal tt,
   {| currentPage := currentPage st; companies := companies st;
      bookmarkedIds := bookmarkedIds st; locations := locations st;
      loading := loading st; cursor := c; hasMore := hasMore st;
      filters := filters st; showLoginDialog := showLoginDialog st;
      user := user st; debouncedSearch := debouncedSearch st;
      observer := observer st; inflight := inflight st;
      console := console st |}).

Definition setHasMore (b : bool) : M unit := λ st,
  (Normal tt,
   {| currentPage := currentPage st; companies := companies st;
      bookmarkedIds := bookmarkedIds st; locations := locations st;
      loading := loading st; cursor := cursor st; hasMore := b;
      filters := filters st; showLoginDialog := showLoginDialog st;
      user := user st; debouncedSearch := debouncedSearch st;
      observer := observer st; inflight := inflight st;
      console := console st |}).

(** [setFilters((prev) => f prev)] *)
Definition setFilters (f : SearchFilters → SearchFilters) : M unit := λ st,
  (Normal tt,
   {| currentPage := currentPage st; companies := companies st;
      bookmarkedIds := bookmarkedIds st; locations := locations st;
      loading := loading st; cursor := cursor st; hasMore := hasMore st;
      filters := f (filters st); showLoginDialog := showLoginDialog st;
      user := user st; debouncedSearch := debouncedSearch st;
      observer := observer st; inflight := inflight st;
      console := console st |}).

Definition setShowLoginDialog (b : bool) : M unit := λ st,
  (Normal tt,
   {| currentPage := currentPage st; companies := companies st;
      bookmarkedIds := bookmarkedIds st; locations := locations st;
      loading := loading st; cursor := cursor st; hasMore := hasMore st;
      filters := filters st; showLoginDialog := b;
      user := user st; debouncedSearch := debouncedSearch st;
      observer := observer st; inflight := inflight st;
      console := console st |}).

(** The session of [useAuth] is replaced. *)
Definition setUser (u : option User.t) : M unit := λ st,
  (Normal tt,
   {| currentPage := currentPage st; companies := companies st;
      bookmarkedIds := bookmarkedIds st; locations := locations st;
      loading := loading st; cursor := cursor st; hasMore := hasMore st;
      filters := filters st; showLoginDialog := showLoginDialog st;
      user := u; debouncedSearch := debouncedSearch st;
      observer := observer st; inflight := inflight st;
      console := console st |}).

(** The value of [useDebounce] is replaced. *)
Definition setDebouncedValue (s : jsstring) : M unit := λ st,
  (Normal tt,
   {| currentPage := currentPage st; companies := companies st;
      bookmarkedIds := bookmarkedIds st; locations := locations st;
      loading := loading st; cursor := cursor st; hasMore := hasMore st;
      filters := filters st; showLoginDialog := showLoginDialog st;
      user := user st; debouncedSearch := s;
      observer := observer st; inflight := inflight st;
      console := console st |}).

(** [observer.current = o] *)
Definition setObserver (o : option IntersectionObserver) : M unit := λ st,
  (Normal tt,
   {| currentPage := currentPage st; companies := companies st;
      bookmarkedIds := bookmarkedIds st; locations := locations st;
      loading := loading st; cursor := cursor st; hasMore := hasMore st;
      filters := filters st; showLoginDialog := showLoginDialog st;
      user := user st; debouncedSearch := debouncedSearch st;
      observer := o; inflight := inflight st;
      console := console st |}).

(** The list of requests in flight is replaced. *)
Definition setInflight (f : list Request → list Request) : M unit := λ st,
  (Normal tt,
   {| currentPage := currentPage st; companies := companies st;
      bookmarkedIds := bookmarkedIds st; locations := locations st;
      loading := loading st; cursor := cursor st; hasMore := hasMore st;
      filters := filters st; showLoginDialog := showLoginDialog st;
      user := user st; debouncedSearch := debouncedSearch st;
      observer := observer st; inflight := f (inflight st);
      console := console st |}).

(** [console.error(msg, error)] *)
Definition console_error (msg : string) : M unit := λ st,
  (Normal tt,
   {| currentPage := currentPage st; companies := companies st;
      bookmarkedIds := bookmarkedIds st; locations := locations st;
      loading := loading st; cursor := cursor st; hasMore := hasMore st;
      filters := filters st; showLoginDialog := showLoginDialog st;
      user := user st; debouncedSearch := debouncedSearch st;
      observer := observer st; inflight := inflight st;
      console := console st ++ [msg] |}).

(** A request leaves the browser. *)
Definition send (r : Request) : M unit := setInflight (λ l, l ++ [r]).

(** A value of the current render. *)
Definition get {A} (f : AppState → A) : M A := λ st, (Normal (f st), st).

(** ** The operations of [App] *)

(** [fetchBookmarks], up to its [await]. *)
Definition fetchBookmarks : M unit :=
  let! u := get user in
  match u with
  | None => ret tt
  | Some _ => send BookmarksRequest
  end.

(** [fetchBookmarks], from the [await] on. *)
Definition fetchBookmarks_resume (o : Outcome (list jsstring)) : M unit :=
  try_catch
    (let! bookmarkedCompanyIds := await o in
     setBookmarkedIds (λ _, list_to_set bookmarkedCompanyIds))
    (λ error, console_error "Failed to fetch bookmarks").

Definition handleBookmarkToggle (id : jsstring) (state : bool) : M unit :=
  let! u := get user in
  match u with
  | None => setShowLoginDialog true
  | Some _ =>
      setBookmarkedIds
        (λ prev, if state then prev ∪ {[id]} else prev ∖ {[id]})
  end.

(** [fetchCompanies], up to its first [await]: the loading flag is raised
    and the request is sent. *)
Definition fetchCompanies (resetList : bool) (currentCursor : option jsstring)
    (searchTerm locationFilter : jsstring) : M unit :=
  setLoading true >>
  send (SearchRequest resetList
          (search_params currentCursor searchTerm locationFilter)).

(** [fetchCompanies], from the first [await] on; [o] is the outcome of
    [fetch] followed by [res.json()]. *)
Definition fetchCompanies_resume (resetList : bool) (o : Outcome Data.t)
    : M unit :=
  try_catch_finally
    (let! data := await o in
     setCompanies (λ prev, if resetList then Data.companiesData data
                           else prev ++ Data.companiesData data) >>
     setCursor (Data.nextCursor data) >>
     setHasMore (Data.hasMore data))
    (λ error, console_error "Error fetching companies:")
    (setLoading false).

Definition fetchLocations : M unit := send LocationsRequest.

Definition fetchLocations_resume (o : Outcome (list jsstring)) : M unit :=
  try_catch
    (let! data_locations := await o in setLocations data_locations)
    (λ error, console_error "Error fetching locations:").

(** Modelled from the spec: [checkAuth] of hooks/useAuth is not part of the
    sources at hand; the spec calls it the check-session operation of the
    hook that holds the current user.  It asks the server for the session. *)
Definition checkAuth : M unit := send AuthRequest.

(** The effect on [debouncedSearch, filters.location, fetchCompanies]. *)
Definition filter_effect : M unit :=
  let! debounced := get debouncedSearch in
  let! f := get filters in
  setCursor None >>
  setHasMore true >>
  fetchCompanies true None debounced (location f).

(** The effect of the initial load; the omitted arguments of
    [fetchCompanies(true)] take their defaults. *)
Definition initial_effect : M unit :=
  fetchCompanies true None [] [] >>
  fetchLocations >>
  checkAuth.

(** The effect on [user]. *)
Definition user_effect : M unit :=
  let! u := get user in
  match u with
  | Some _ => fetchBookmarks
  | None => ret tt
  end.

(** The dependency array of [lastCompanyRef]. *)
Definition refDeps (st : AppState)
    : bool * bool * option jsstring * jsstring * jsstring :=
  (loading st, hasMore st, cursor st, debouncedSearch st,
   location (filters st)).

(** The dependency array of the filter effect ([fetchCompanies] itself
    never changes, its only dependency being the constant [API_BASE]). *)
Definition filterDeps (st : AppState) : jsstring * jsstring :=
  (debouncedSearch st, location (filters st)).

(** [lastCompanyRef] as created by a render with the given dependencies.
    The previous observer is disconnected and dropped when
    [observer.current] is overwritten. *)
Definition lastCompanyRef
    (deps : bool * bool * option jsstring * jsstring * jsstring)
    (node : option jsstring) : M unit :=
  let '(l, h, c, s, loc) := deps in
  if l then ret tt
  else
    setObserver (Some {| seen_hasMore := h; seen_cursor := c;
                         seen_search := s; seen_location := loc;
                         target := node |}).

(** The callback given to [new IntersectionObserver]; [isIntersecting] is
    that of [entries[0]]. *)
Definition observer_callback (o : IntersectionObserver)
    (isIntersecting : bool) : M unit :=
  if isIntersecting && seen_hasMore o then
    fetchCompanies false (seen_cursor o) (seen_search o) (seen_location o)
  else ret tt.

Definition handleSearchChange (s : jsstring) : M unit :=
  setFilters (λ prev, {| search := s; location := location prev |}).

Definition handleLocationChange (l : jsstring) : M unit :=
  setFilters (λ prev, {| search := search prev; location := l |}).

(** ** Rendering *)

(** The key of the card that receives [lastCompanyRef]: the last company of
    the list, when the results page is shown. *)
Definition lastCard (st : AppState) : option jsstring :=
  match currentPage st with
  | home => last (Company.id <$> companies st)
  | bookmarks => None
  end.

(** The commit of a render after the render [prev].  React detaches the
    ref of the previous render (calling it with [null]) and attaches the
    ref of the new one (calling it with the node), unless the callback, by
    its dependency array, and the node are those of the previous render. *)
Definition commit (prev : AppState) : M unit :=
  let! now := get (λ st, st) in
  match lastCard prev, lastCard now with
  | None, None => ret tt
  | Some _, None => lastCompanyRef (refDeps prev) None
  | None, Some node => lastCompanyRef (refDeps now) (Some node)
  | Some node', Some node =>
      if decide (refDeps prev = refDeps now ∧ node' = node) then ret tt
      else
        lastCompanyRef (refDeps prev) None >>
        lastCompanyRef (refDeps now) (Some node)
  end.

(** The effects that run after the commit of a render following [prev]. *)
Definition run_effects (prev : AppState) : M unit :=
  let! now := get (λ st, st) in
  (if decide (filterDeps prev = filterDeps now) then ret tt
   else filter_effect) >>
  (if decide (user prev = user now) then ret tt else user_effect).

(** ** Events *)

Inductive Event :=
| SearchInput (s : jsstring)            (* typing in the search bar *)
| DebounceSettled                       (* the timer of [useDebounce] fires *)
| LocationInput (l : jsstring)          (* choosing a location *)
| Intersect (isIntersecting : bool)     (* the observer reports its target *)
| Response (k : nat) (r : Reply)        (* request [k] in flight is answered *)
| BookmarkToggle (id : jsstring) (state : bool)
| Navigate (p : Page)
| LoginClick
| LoginDialogClose.

(** Modelled from the spec: hooks/useDebouce is not part of the sources at
    hand; the spec says the derived value updates once the input has been
    stable for the delay.  When the timer fires the debounced value becomes
    the current input. *)
Definition debounce_settled : M unit :=
  let! f := get filters in setDebouncedValue (search f).

(** The browser delivers an intersection entry to the observer in
    [observer.current], if it observes a node. *)
Definition deliver_intersection (isIntersecting : bool) : M unit :=
  let! o := get observer in
  match o with
  | Some ob =>
      match target ob with
      | Some _ => observer_callback ob isIntersecting
      | None => ret tt
      end
  | None => ret tt
  end.

(** The browser answers the [k]-th request in flight; the continuation of
    the function that awaits it runs. *)
Definition deliver_reply (k : nat) (r : Reply) : M unit :=
  let! pending := get inflight in
  match pending !! k, r with
  | Some (SearchRequest resetList _), SearchReply o =>
      setInflight (delete k) >> fetchCompanies_resume resetList o
  | Some LocationsRequest, LocationsReply o =>
      setInflight (delete k) >> fetchLocations_resume o
  | Some BookmarksRequest, BookmarksReply o =>
      setInflight (delete k) >> fetchBookmarks_resume o
  | Some AuthRequest, AuthReply u =>
      setInflight (delete k) >> setUser u
  | _, _ => ret tt
  end.

Definition handle (e : Event) : M unit :=
  match e with
  | SearchInput s => handleSearchChange s
  | DebounceSettled => debounce_settled
  | LocationInput l => handleLocationChange l
  | Intersect b => deliver_intersection b
  | Response k r => deliver_reply k r
  | BookmarkToggle i state => handleBookmarkToggle i state
  | Navigate p => setCurrentPage p
  | LoginClick => setShowLoginDialog true
  | LoginDialogClose => setShowLoginDialog false
  end.

(** One turn of the event loop: the handler, the commit of the render it
    causes, the effects, and the commit of the render they cause. *)
Definition step (e : Event) (st : AppState) : AppState :=
  let st1 := exec (handle e >> commit st) st in
  exec (run_effects st >> commit st1) st1.

(** The component after mounting: the first render has no card; all three
    effects run, in the order of their declaration. *)
Definition mounted : AppState :=
  exec (filter_effect >> initial_effect >> user_effect >> commit initial)
       initial.

(** The state after a sequence of events. *)
Definition run_from (st : AppState) (evs : list Event) : AppState :=
  foldl (λ s e, step e s) st evs.

Definition run (evs : list Event) : AppState := run_from mounted evs.

(** ** Observations of the state *)

(** Everything of the state but [observer.current]. *)
Definition visible (st : AppState) :=
  (currentPage st, companies st, bookmarkedIds st, locations st, loading st,
   cursor st, hasMore st, filters st, showLoginDialog st, user st,
   debouncedSearch st, inflight st, console st).

Ltac visible_eqs H :=
  unfold visible in H;
  injection H as ?Hpage ?Hcompanies ?Hbookmarked ?Hlocations ?Hloading
                 ?Hcursor ?HhasMore ?Hfilters ?Hdialog ?Huser ?Hdebounced
                 ?Hinflight ?Hconsole.

(** The observer that is connected to a node was created by the current
    render, which was not loading: the values its callback closed over are
    the current ones, and its node is the last card. *)
Definition observer_fresh (st : AppState) : Prop :=
  ∀ ob node,
    observer st = Some ob → target ob = Some node →
    loading st = false
    ∧ lastCard st = Some node
    ∧ seen_hasMore ob = hasMore st
    ∧ seen_cursor ob = cursor st
    ∧ seen_search ob = debouncedSearch st
    ∧ seen_location ob = location (filters st).

(** A search request. *)
Definition is_search (r : Request) : bool :=
  match r with SearchRequest _ _ => true | _ => false end.

(** The reply to a search. *)
Definition is_search_reply (e : Event) : bool :=
  match e with Response _ (SearchReply _) => true | _ => false end.

(** Along the events [evs] from [st] the filter pair of the queries, the
    debounced search and the location, keeps its value. *)
Fixpoint fixed_filters (st : AppState) (evs : list Event) : Prop :=
  match evs with
  | [] => True
  | e :: evs' =>
      filterDeps (step e st) = filterDeps st ∧ fixed_filters (step e st) evs'
  end.

(** ** Example data *)

(** A state with a session, for the examples: after mounting, the session
    check (the fourth request in flight) is answered with a user. *)
Definition with_session : AppState :=
  run [Response 3
         (AuthReply (Some {| User.name := js "ada";
                             User.profile_picture := js "ada.png" |}))].


Definition company (i : string) : Company.t :=
  {| Company.id := js i; Company.name := js i;
     Company.location := js "Remote" |}.

(** A first page with more to come, and the page that ends the results. *)
Definition first_page : Data.t :=
  {| Data.companiesData := [company "acme"; company "bolt"];
     Data.nextCursor := Some (js "c1"); Data.hasMore := true |}.

Definition last_page : Data.t :=
  {| Data.companiesData := [company "cusp"; company "dyne"];
     Data.nextCursor := None; Data.hasMore := false |}.

(** After mounting, the first of the two searches in flight is answered and
    the last card scrolls into view: the next page is requested. *)
Definition scrolled_once : list Event :=
  [Response 0 (SearchReply (Resolved first_page)); Intersect true].

(** Then the next page arrives (it is the fourth request in flight, after
    the second search of the mount, the locations and the session check). *)
Definition scrolled_to_end : list Event :=
  scrolled_once ++ [Response 3 (SearchReply (Resolved last_page))].

(** Both searches of the mount are answered; then a location is chosen and
    the search it starts (the third request in flight, after the locations
    and the session check) fails. *)
Definition shown_first_page : list Event :=
  [Response 0 (SearchReply (Resolved first_page));
   Response 0 (SearchReply (Resolved first_page))].

Definition location_chosen_search_failed : list Event :=
  shown_first_page
    ++ [LocationInput (js "Berlin");
        Response 2 (SearchReply (Rejected NetworkError))].

(** Both searches of the mount are answered, the last card scrolls into
    view and the page that ends the results arrives: nothing is in flight
    but the locations and the session check. *)
Definition shown_all : list Event :=
  shown_first_page
    ++ [Intersect true; Response 2 (SearchReply (Resolved last_page))].

(** Events that leave the filter pair alone: scrolling, typing (the
    debounce timer has not fired), the arrival of the locations. *)
Definition idling : list Event :=
  [Intersect true; SearchInput (js "acme");
   Response 0 (LocationsReply (Resolved [js "Berlin"])); Intersect true].

(** ** What the results page shows *)

(** The decimal digits of a number, most significant first. *)
Fixpoint uint_units (d : Decimal.uint) : jsstring :=
  match d with
  | Decimal.Nil => []
  | Decimal.D0 d' => 48 :: uint_units d'
  | Decimal.D1 d' => 49 :: uint_units d'
  | Decimal.D2 d' => 50 :: uint_units d'
  | Decimal.D3 d' => 51 :: uint_units d'
  | Decimal.D4 d' => 52 :: uint_units d'
  | Decimal.D5 d' => 53 :: uint_units d'
  | Decimal.D6 d' => 54 :: uint_units d'
  | Decimal.D7 d' => 55 :: uint_units d'
  | Decimal.D8 d' => 56 :: uint_units d'
  | Decimal.D9 d' => 57 :: uint_units d'
  end.

(** [`${n}`] for a length [n]. *)
Definition decimal (n : nat) : jsstring := uint_units (Nat.to_uint n).

(** [parts.join(sep)] *)
Fixpoint join (sep : jsstring) (parts : list jsstring) : jsstring :=
  match parts with
  | [] => []
  | [part] => part
  | part :: parts' => part ++ sep ++ join sep parts'
  end.

(** The array [filterText] of [resultsInfo] after its two pushes; the code
    unit 34 is the double quote. *)
Definition filterText (f : SearchFilters) : list jsstring :=
  (if truthy (search f) then [[34] ++ search f ++ [34]] else [])
    ++ (if truthy (location f) then [js "in " ++ location f] else []).

(** [resultsInfo], memoised on [filters] and [companies.length]; the code
    unit 0x2022 is the bullet. *)
Definition resultsInfo (f : SearchFilters) (companies_length : nat)
    : jsstring :=
  let hasFilters := truthy (search f) || truthy (location f) in
  if hasFilters then
    js "Showing results for " ++ join (js " ") (filterText f)
      ++ js " " ++ [0x2022] ++ js " "
      ++ decimal companies_length ++ js " companies found"
  else decimal companies_length ++ js " companies".

(** The conditional parts of the results page; the bookmarks page, shown
    instead when [currentPage] is [bookmarks], has none of them. *)
Definition shows_loading (st : AppState) : bool :=
  match currentPage st with
  | home => loading st
  | bookmarks => false
  end.

(** [!hasMore && companies.length > 0]: the end of the results. *)
Definition shows_end (st : AppState) : bool :=
  match currentPage st with
  | home => negb (hasMore st) && (0 <? length (companies st))%nat
  | bookmarks => false
  end.

(** [!loading && companies.length === 0]: no companies found. *)
Definition shows_empty (st : AppState) : bool :=
  match currentPage st with
  | home => negb (loading st) && (length (companies st) =? 0)%nat
  | bookmarks => false
  end.

(** [resultsInfo && <Label>]: the label is rendered for a truthy text. *)
Definition shows_resultsInfo (st : AppState) : bool :=
  match currentPage st with
  | home => truthy (resultsInfo (filters st) (length (companies st)))
  | bookmarks => false
  end.

(** ** Further observations of the state *)

(** When a last card is rendered by a render that is not loading, the
    observer in [observer.current] is connected to it. *)
Definition observer_attached (st : AppState) : Prop :=
  ∀ node,
    lastCard st = Some node → loading st = false →
    ∃ ob, observer st = Some ob ∧ target ob = Some node.

(** How many requests equal to [r] are in flight. *)
Definition in_flight (r : Request) (st : AppState) : nat :=
  length (filter (λ x, x = r) (inflight st)).

(** The reply that brings a session. *)
Definition is_login (e : Event) : bool :=
  match e with Response _ (AuthReply (Some _)) => true | _ => false end.

(** A search in flight is well formed: it asks for twenty companies, and a
    search that resets the list carries no cursor. *)
Definition well_formed (r : Request) : Prop :=
  match r with
  | SearchRequest resetList p =>
      params_get "limit" p = Some (js "20")
      ∧ (resetList = true → params_get "cursor" p = None)
  | _ => True
  end.


(** The searches in flight. *)
Definition searches (st : AppState) : list Request :=
  filter (λ r, is_search r = true) (inflight st).

(** * Properties *)

(** ** The query string *)

Section Trim.

Lemma trimStart_split (s : jsstring) :
  ∃ pre, s = pre ++ trimStart s ∧ forallb is_js_whitespace pre = true.
Proof.
  induction s as [|c s [pre [Hs Hpre]]]; simpl.
  - by exists [].
  - destruct (is_js_whitespace c) eqn:Hc.
    + exists (c :: pre). simpl. rewrite Hc, Hpre. by rewrite Hs at 1.
    + by exists [].
Qed.

Lemma trimStart_head (s : jsstring) (c : N) :
  head (trimStart s) = Some c → is_js_whitespace c = false.
Proof.
  induction s as [|d s IH]; simpl; [done|].
  destruct (is_js_whitespace d) eqn:Hd; [done|].
  simpl. by intros [= <-].
Qed.

(** [trim] removes a run of white space at each end and nothing else, and
    what it leaves neither starts nor ends with white space. *)
Lemma trim_spec (s : jsstring) :
  (∃ pre post, s = pre ++ trim s ++ post
     ∧ forallb is_js_whitespace pre = true
     ∧ forallb is_js_whitespace post = true)
  ∧ (∀ c, head (trim s) = Some c → is_js_whitespace c = false)
  ∧ (∀ c, last (trim s) = Some c → is_js_whitespace c = false).
Proof.
  unfold trim, trimEnd.
  destruct (trimStart_split s) as [pre [Hs Hpre]].
  destruct (trimStart_split (rev (trimStart s))) as [tsop [Hr Htsop]].
  split; [|split].
  - exists pre, (rev tsop). split; [|split]; [|done|].
    + rewrite Hs at 1. f_equal.
      rewrite <- (rev_involutive (trimStart s)) at 1.
      rewrite Hr at 1. by rewrite rev_app_distr.
    + rewrite forallb_forall in *. intros x Hx.
      apply Htsop. by apply in_rev.
  - intros c Hc.
    assert (HT : trimStart s
                 = rev (trimStart (rev (trimStart s))) ++ rev tsop).
    { rewrite <- rev_app_distr, <- Hr. by rewrite rev_involutive. }
    destruct (rev (trimStart (rev (trimStart s)))) as [|y w]; [done|].
    simpl in Hc. injection Hc as ->.
    apply (trimStart_head s). by rewrite HT.
  - intros c Hc.
    destruct (trimStart (rev (trimStart s))) as [|z u] eqn:Hu; [done|].
    assert (Hz : is_js_whitespace z = false)
      by (apply (trimStart_head (rev (trimStart s))); by rewrite Hu).
    simpl in Hc. rewrite last_snoc in Hc. by injection Hc as <-.
Qed.

End Trim.

Section Query.

Variables (currentCursor : option jsstring)
          (searchTerm locationFilter : jsstring).

Let p := search_params currentCursor searchTerm locationFilter.

Ltac query_cases :=
  subst p;
  unfold search_params, new_URLSearchParams, search_object, spread_cursor,
    spread_trimmed;
  destruct currentCursor as [[|c0 c]|];
  destruct (trim searchTerm) as [|t0 t];
  destruct (trim locationFilter) as [|l0 l];
  cbn [truthy app fmap list_fmap fst snd params_get String.eqb Ascii.eqb
       Bool.eqb].

Lemma search_params_keys :
  p.*1 `sublist_of` ["limit"; "cursor"; "search"; "location"]%string.
Proof.
  query_cases;
    repeat (first [ apply sublist_skip | apply sublist_cons
                  | apply sublist_nil ]).
Qed.

Lemma search_params_cursor (v : jsstring) :
  params_get "cursor" p = Some v
  ↔ ∃ c, currentCursor = Some c ∧ c ≠ [] ∧ v = toUSVString c.
Proof.
  query_cases; split;
    try (intros (c' & H1 & H2 & H3)); try intros H; simplify_eq;
    try done; eauto.
Qed.

Lemma search_params_search (v : jsstring) :
  params_get "search" p = Some v
  ↔ trim searchTerm ≠ [] ∧ v = toUSVString (trim searchTerm).
Proof.
  query_cases; split;
    try (intros [H1 H2]); try intros H; simplify_eq; try done.
Qed.

Lemma search_params_location (v : jsstring) :
  params_get "location" p = Some v
  ↔ trim locationFilter ≠ [] ∧ v = toUSVString (trim locationFilter).
Proof.
  query_cases; split;
    try (intros [H1 H2]); try intros H; simplify_eq; try done.
Qed.

End Query.

Section ScalarValues.

Lemma toUSVString_well_paired_bounded (n : nat) (s : jsstring) :
  (length s ≤ n)%nat → well_paired s = true → toUSVString s = s.
Proof.
  revert s. induction n as [|n IH]; intros s Hn.
  { destruct s; [done|]. simpl in Hn. lia. }
  destruct s as [|c s]; [done|]. simpl in *.
  destruct (is_high_surrogate c).
  - destruct s as [|d s]; [done|]. simpl in Hn.
    intros [Hd Hs]%andb_true_iff. rewrite Hd.
    rewrite (IH s); [done|lia|done].
  - intros [Hc Hs]%andb_true_iff. apply negb_true_iff in Hc. rewrite Hc.
    rewrite (IH s); [done|lia|done].
Qed.

(** A string whose surrogates are all paired is its own scalar value
    string. *)
Lemma toUSVString_well_paired (s : jsstring) :
  well_paired s = true → toUSVString s = s.
Proof. by apply (toUSVString_well_paired_bounded (length s)). Qed.

Lemma toUSVString_paired_bounded (n : nat) (s : jsstring) :
  (length s ≤ n)%nat → well_paired (toUSVString s) = true.
Proof.
  revert s. induction n as [|n IH]; intros s Hn.
  { destruct s; [done|]. simpl in Hn. lia. }
  destruct s as [|c s]; [done|]. simpl in *.
  destruct (is_high_surrogate c) eqn:Hc.
  - destruct s as [|d s]; [done|]. simpl in Hn.
    destruct (is_low_surrogate d) eqn:Hd.
    + simpl. rewrite Hc, Hd. apply IH. lia.
    + change (well_paired (0xFFFD :: toUSVString (d :: s)) = true).
      cbn [well_paired]. change (is_high_surrogate 0xFFFD) with false.
      change (is_low_surrogate 0xFFFD) with false. apply IH. simpl. lia.
  - destruct (is_low_surrogate c) eqn:Hl.
    + cbn [well_paired]. change (is_high_surrogate 0xFFFD) with false.
      change (is_low_surrogate 0xFFFD) with false. apply IH. lia.
    + cbn [well_paired]. rewrite Hc, Hl. apply IH. lia.
Qed.

(** What [new URLSearchParams] holds has no surrogate outside a pair. *)
Lemma toUSVString_paired (s : jsstring) : well_paired (toUSVString s) = true.
Proof. by apply (toUSVString_paired_bounded (length s)). Qed.

End ScalarValues.

(** C10, as the code has it: the query of [fetchCompanies] always carries
    limit=20; it carries a cursor exactly when the cursor argument is a
    non-empty string (neither [null] nor the empty string); it carries
    search (location) exactly when the argument is non-empty after
    trimming; and it carries nothing else.  The value sent is the cursor,
    respectively the trimmed argument, as [new URLSearchParams] converts
    it: unchanged when its surrogates are paired, with U+FFFD for every
    other surrogate. *)
Theorem fetchCompanies_query (resetList : bool)
    (currentCursor : option jsstring) (searchTerm locationFilter : jsstring)
    (st : AppState) :
  ∃ p,
    inflight (exec (fetchCompanies resetList currentCursor searchTerm
                      locationFilter) st)
      = inflight st ++ [SearchRequest resetList p]
    ∧ params_get "limit" p = Some (js "20")
    ∧ (∀ v, params_get "cursor" p = Some v
            ↔ ∃ c, currentCursor = Some c ∧ c ≠ [] ∧ v = toUSVString c)
    ∧ (∀ v, params_get "search" p = Some v
            ↔ trim searchTerm ≠ [] ∧ v = toUSVString (trim searchTerm))
    ∧ (∀ v, params_get "location" p = Some v
            ↔ trim locationFilter ≠ []
              ∧ v = toUSVString (trim locationFilter))
    ∧ p.*1 `sublist_of` ["limit"; "cursor"; "search"; "location"]%string
    ∧ (∀ s, well_paired s = true → toUSVString s = s)
    ∧ (∀ s, well_paired (toUSVString s) = true).
Proof.
  exists (search_params currentCursor searchTerm locationFilter).
  split; [reflexivity|]. split; [reflexivity|].
  split; [apply search_params_cursor|].
  split; [apply search_params_search|].
  split; [apply search_params_location|].
  split; [apply search_params_keys|].
  split; [apply toUSVString_well_paired|apply toUSVString_paired].
Qed.

(** C10, as stated, fails for the empty string: that cursor is not [null],
    and the query carries no cursor. *)
Lemma fetchCompanies_query_empty_cursor :
  let st := exec (fetchCompanies false (Some []) [] []) initial in
  inflight st = [SearchRequest false [("limit"%string, js "20")]]
  ∧ ¬ (is_Some (params_get "cursor" (search_params (Some []) [] []))
       ↔ Some ([] : jsstring) ≠ None).
Proof.
  split; [reflexivity|].
  intros [_ H]. destruct H as [v Hv]; [done|]. discriminate Hv.
Qed.

(** ** The event loop *)

Section EventLoop.

Lemma exec_bind {A B} (m : M A) (k : A → M B) (a : A) (st : AppState) :
  completion m st = Normal a →
  exec (bind m k) st = exec (k a) (exec m st).
Proof.
  unfold exec, completion, bind. destruct (m st) as [r st']. simpl.
  by intros ->.
Qed.

Lemma completion_bind {A B} (m : M A) (k : A → M B) (a : A) (st : AppState) :
  completion m st = Normal a →
  completion (bind m k) st = completion (k a) (exec m st).
Proof.
  unfold exec, completion, bind. destruct (m st) as [r st']. simpl.
  by intros ->.
Qed.

Lemma lastCompanyRef_normal deps node st :
  completion (lastCompanyRef deps node) st = Normal tt.
Proof. destruct deps as [[[[[] h] c] s] loc]; reflexivity. Qed.

Lemma lastCompanyRef_visible deps node st :
  visible (exec (lastCompanyRef deps node) st) = visible st.
Proof. destruct deps as [[[[[] h] c] s] loc]; reflexivity. Qed.

Lemma commit_normal prev st : completion (commit prev) st = Normal tt.
Proof.
  unfold commit, completion, bind, get.
  destruct (lastCard prev), (lastCard st); try case_decide;
    try reflexivity; try apply lastCompanyRef_normal.
  pose proof (lastCompanyRef_normal (refDeps prev) None st) as Hn.
  unfold completion in Hn.
  destruct (lastCompanyRef (refDeps prev) None st) as [r st'].
  simpl in Hn. subst r. apply lastCompanyRef_normal.
Qed.

Lemma commit_visible prev st : visible (exec (commit prev) st) = visible st.
Proof.
  unfold commit, exec, bind, get.
  destruct (lastCard prev), (lastCard st); try case_decide;
    try reflexivity; try apply lastCompanyRef_visible.
  pose proof (lastCompanyRef_normal (refDeps prev) None st) as Hn.
  pose proof (lastCompanyRef_visible (refDeps prev) None st) as Hv.
  unfold completion, exec in Hn, Hv.
  destruct (lastCompanyRef (refDeps prev) None st) as [r st'].
  simpl in Hn, Hv. subst r. rewrite <- Hv. apply lastCompanyRef_visible.
Qed.

Lemma fetchCompanies_resume_normal resetList o st :
  completion (fetchCompanies_resume resetList o) st = Normal tt.
Proof. by destruct o. Qed.

Lemma handle_normal e st : completion (handle e) st = Normal tt.
Proof.
  destruct e as [s| |l|b|k r|i state|p| |]; try reflexivity.
  - unfold handle, deliver_intersection, completion, bind, get.
    destruct (observer st) as [ob|]; [|reflexivity].
    destruct (target ob); [|reflexivity].
    unfold observer_callback.
    by destruct (b && seen_hasMore ob).
  - unfold handle, deliver_reply, completion, bind, get.
    destruct (inflight st !! k) as [[reset p| | |]|];
      destruct r as [[]|[]|[]|]; reflexivity.
  - unfold handle, handleBookmarkToggle, completion, bind, get.
    by destruct (user st).
Qed.

Lemma run_effects_normal prev st :
  completion (run_effects prev) st = Normal tt.
Proof.
  unfold run_effects, completion, bind, get.
  repeat case_decide; simpl; try reflexivity;
    unfold user_effect, fetchBookmarks, bind, get; simpl;
    destruct (user st) eqn:Hu; simpl; rewrite ?Hu; reflexivity.
Qed.

Lemma run_effects_observer prev st :
  observer (exec (run_effects prev) st) = observer st.
Proof.
  unfold run_effects, exec, bind, get.
  repeat case_decide; simpl; try reflexivity;
    unfold user_effect, fetchBookmarks, bind, get; simpl;
    destruct (user st) eqn:Hu; simpl; rewrite ?Hu; reflexivity.
Qed.

(** Without a change of the dependencies no effect runs. *)
Lemma run_effects_idle prev st :
  filterDeps prev = filterDeps st → user prev = user st →
  exec (run_effects prev) st = st.
Proof.
  intros Hf Hu. unfold run_effects, exec, bind, get.
  rewrite !decide_True by done. reflexivity.
Qed.

(** The effects read and write the visible state only. *)
Lemma run_effects_visible prev st st' :
  visible st = visible st' →
  visible (exec (run_effects prev) st)
    = visible (exec (run_effects prev) st').
Proof.
  intros Hv. visible_eqs Hv.
  unfold run_effects, exec, bind, get, filterDeps.
  rewrite Hdebounced, Hfilters, Huser.
  destruct (user st') eqn:Hu;
    repeat case_decide; simpl;
    unfold user_effect, fetchBookmarks, send, bind, get, visible; simpl;
    rewrite ?Huser, ?Hu; simpl; congruence.
Qed.

Lemma handle_observer e st : observer (exec (handle e) st) = observer st.
Proof.
  destruct e as [s| |l|b|k r|i state|p| |]; try reflexivity.
  - unfold handle, deliver_intersection, exec, bind, get.
    destruct (observer st) as [ob|] eqn:Hob; [|done].
    destruct (target ob); [|done].
    unfold observer_callback.
    by destruct (b && seen_hasMore ob).
  - unfold handle, deliver_reply, exec, bind, get.
    destruct (inflight st !! k) as [[reset p| | |]|];
      destruct r as [[]|[]|[]|]; try destruct reset; reflexivity.
  - unfold handle, handleBookmarkToggle, exec, bind, get.
    by destruct (user st).
Qed.

(** The four phases of a step. *)
Lemma step_phases e st :
  let handled := exec (handle e) st in
  let rendered := exec (commit st) handled in
  let affected := exec (run_effects st) rendered in
  step e st = exec (commit rendered) affected.
Proof.
  simpl. unfold step.
  rewrite (exec_bind (run_effects st) _ tt) by apply run_effects_normal.
  rewrite (exec_bind (handle e) _ tt) by apply handle_normal.
  reflexivity.
Qed.

(** The visible state after a step is that of the handler followed by the
    effects. *)
Lemma step_visible e st :
  visible (step e st)
    = visible (exec (run_effects st) (exec (handle e) st)).
Proof.
  rewrite step_phases, commit_visible.
  apply run_effects_visible, commit_visible.
Qed.

End EventLoop.

(** ** The observer follows the render *)

Section ObserverInvariant.

Lemma lastCompanyRef_detach prev st :
  observer_fresh prev → observer st = observer prev →
  ∀ ob, observer (exec (lastCompanyRef (refDeps prev) None) st) = Some ob →
        target ob = None.
Proof.
  intros Hfresh Hobs ob. unfold refDeps, lastCompanyRef, exec.
  destruct (loading prev) eqn:Hl; simpl.
  - rewrite Hobs. intros Hob.
    destruct (target ob) as [node|] eqn:Ht; [|done].
    destruct (Hfresh ob node Hob Ht) as [Hl' _]. congruence.
  - by intros [= <-].
Qed.

Lemma lastCompanyRef_attach st node :
  lastCard st = Some node →
  (∀ ob, observer st = Some ob → target ob = None) →
  observer_fresh (exec (lastCompanyRef (refDeps st) (Some node)) st).
Proof.
  intros Hcard Hnone ob n. unfold refDeps, lastCompanyRef, exec.
  destruct (loading st) eqn:Hl; simpl.
  - intros Hob Ht. rewrite (Hnone ob Hob) in Ht. done.
  - intros [= <-]. simpl. intros [= <-].
    unfold lastCard in *. simpl. done.
Qed.

(** A commit re-establishes the invariant, whatever the handler or the
    effects changed in the visible state. *)
Lemma commit_fresh prev st :
  observer_fresh prev → observer st = observer prev →
  observer_fresh (exec (commit prev) st).
Proof.
  intros Hfresh Hobs. unfold commit.
  rewrite (exec_bind _ _ st) by reflexivity.
  change (exec (get (λ st0, st0)) st) with st.
  destruct (lastCard prev) as [node'|] eqn:Hprev;
    destruct (lastCard st) as [node|] eqn:Hnow.
  - case_decide as Hsame.
    + destruct Hsame as [Hdeps ->].
      intros ob n Hob Ht. change (exec (ret tt) st) with st in *.
      rewrite Hobs in Hob.
      destruct (Hfresh ob n Hob Ht) as (Hl & Hc & Hh & Hcu & Hs & Hloc).
      unfold refDeps in Hdeps. injection Hdeps as E1 E2 E3 E4 E5.
      repeat split; congruence.
    + rewrite (exec_bind _ _ tt) by apply lastCompanyRef_normal.
      pose proof (lastCompanyRef_detach prev st Hfresh Hobs) as Hdet.
      pose proof (lastCompanyRef_visible (refDeps prev) None st) as Hv.
      set (st' := exec (lastCompanyRef (refDeps prev) None) st) in *.
      assert (Hdeps : refDeps st' = refDeps st).
      { visible_eqs Hv. unfold refDeps. congruence. }
      rewrite <- Hdeps. apply lastCompanyRef_attach; [|done].
      visible_eqs Hv. unfold lastCard in *.
      by rewrite Hpage, Hcompanies.
  - intros ob n Hob Ht.
    by rewrite (lastCompanyRef_detach prev st Hfresh Hobs ob Hob) in Ht.
  - apply lastCompanyRef_attach; [done|].
    intros ob Hob. rewrite Hobs in Hob.
    destruct (target ob) as [n|] eqn:Ht; [|done].
    destruct (Hfresh ob n Hob Ht) as (_ & Hc & _). congruence.
  - intros ob n Hob Ht. change (exec (ret tt) st) with st in *.
    rewrite Hobs in Hob.
    destruct (Hfresh ob n Hob Ht) as (_ & Hc & _). congruence.
Qed.

Lemma step_fresh e st : observer_fresh st → observer_fresh (step e st).
Proof.
  intros Hfresh. rewrite step_phases.
  apply commit_fresh.
  - apply commit_fresh; [done|apply handle_observer].
  - apply run_effects_observer.
Qed.

Lemma mounted_fresh : observer_fresh mounted.
Proof. intros ob node Hob. vm_compute in Hob. discriminate Hob. Qed.

Lemma run_from_fresh evs st :
  observer_fresh st → observer_fresh (run_from st evs).
Proof.
  revert st. induction evs as [|e evs IH]; intros st Hfresh; [done|].
  simpl. apply IH. by apply step_fresh.
Qed.

Lemma run_fresh evs : observer_fresh (run evs).
Proof. apply run_from_fresh, mounted_fresh. Qed.

End ObserverInvariant.

(** ** Scrolling *)

Section Scroll.

(** A render that changes neither the dependencies nor the last card
    leaves the observer alone. *)
Lemma commit_same st : exec (commit st) st = st.
Proof.
  unfold commit, exec, bind, get. simpl.
  destruct (lastCard st); [|done]. by rewrite decide_True.
Qed.

Lemma step_idle e st :
  exec (handle e) st = st → step e st = st.
Proof.
  intros Hh. rewrite step_phases. simpl. rewrite Hh, !commit_same.
  by rewrite run_effects_idle, commit_same.
Qed.

(** What the delivery of an intersection entry does: nothing, or the
    request of the next page for the current cursor and filters. *)
Lemma deliver_intersection_cases b st :
  observer_fresh st →
  (exec (deliver_intersection b) st = st
   ∧ (b = false ∨ hasMore st = false ∨ loading st = true
      ∨ lastCard st = None ∨ observer st = None
      ∨ ∃ ob, observer st = Some ob ∧ target ob = None))
  ∨ (exec (deliver_intersection b) st
       = exec (fetchCompanies false (cursor st) (debouncedSearch st)
                 (location (filters st))) st
     ∧ b = true ∧ hasMore st = true ∧ loading st = false
     ∧ is_Some (lastCard st)).
Proof.
  intros Hfresh. unfold deliver_intersection, exec, bind, get. simpl.
  destruct (observer st) as [ob|] eqn:Hob; [|left; split; auto 10].
  destruct (target ob) as [node|] eqn:Ht; [|left; split; eauto 10].
  destruct (Hfresh ob node Hob Ht) as (Hl & Hc & Hh & Hcu & Hs & Hloc).
  unfold observer_callback. rewrite Hh, Hcu, Hs, Hloc.
  destruct b; simpl; [|left; split; auto].
  destruct (hasMore st) eqn:Hm; [|left; split; auto].
  right. rewrite Hc. split; [|by eauto].
  unfold fetchCompanies, send, setInflight, setLoading, bind. simpl.
  by rewrite Hob, Hm.
Qed.

Lemma intersect_idle b st :
  observer_fresh st → loading st = true ∨ hasMore st = false →
  step (Intersect b) st = st.
Proof.
  intros Hfresh Hidle. apply step_idle. simpl.
  destruct (deliver_intersection_cases b st Hfresh)
    as [[Hsame _]|(_ & _ & Hm & Hl & _)]; [done|].
  destruct Hidle; congruence.
Qed.

End Scroll.

(** C3: in every state the application reaches, when [hasMore] is false an
    intersection event, intersecting or not, calls [fetchCompanies] not at
    all: the step leaves the state, and with it the requests in flight and
    the loading flag, as it is. *)
Theorem no_fetch_when_exhausted (evs : list Event) (isIntersecting : bool) :
  hasMore (run evs) = false →
  step (Intersect isIntersecting) (run evs) = run evs
  ∧ inflight (step (Intersect isIntersecting) (run evs)) = inflight (run evs).
Proof.
  intros Hm.
  assert (step (Intersect isIntersecting) (run evs) = run evs) as ->; [|done].
  apply intersect_idle; [apply run_fresh|by right].
Qed.

Lemma no_fetch_when_exhausted_witness :
  step (Intersect true) (run scrolled_to_end) = run scrolled_to_end
  ∧ inflight (step (Intersect true) (run scrolled_to_end))
    = inflight (run scrolled_to_end).
Proof.
  apply (no_fetch_when_exhausted scrolled_to_end true).
  vm_compute. reflexivity.
Defined.

(** ** Replies *)

Section Replies.

(** When the handler touches neither the filter pair nor the session, no
    effect runs and the visible state is the one the handler left. *)
Lemma step_visible_idle e st :
  filterDeps (exec (handle e) st) = filterDeps st →
  user (exec (handle e) st) = user st →
  visible (step e st) = visible (exec (handle e) st).
Proof.
  intros Hf Hu. rewrite step_visible. by rewrite run_effects_idle.
Qed.

Lemma search_reply_handled st k resetList p o :
  inflight st !! k = Some (SearchRequest resetList p) →
  exec (handle (Response k (SearchReply o))) st
    = exec (fetchCompanies_resume resetList o)
           (exec (setInflight (delete k)) st).
Proof.
  intros Hk. simpl. unfold deliver_reply, exec, bind, get. simpl.
  by rewrite Hk.
Qed.

Lemma search_reply_visible st k resetList p o :
  inflight st !! k = Some (SearchRequest resetList p) →
  visible (step (Response k (SearchReply o)) st)
    = visible (exec (fetchCompanies_resume resetList o)
                    (exec (setInflight (delete k)) st)).
Proof.
  intros Hk. rewrite <- (search_reply_handled st k resetList p o Hk).
  apply step_visible_idle;
    rewrite (search_reply_handled st k resetList p o Hk);
    by destruct o.
Qed.

(** A reply other than that of the session check starts no effect. *)
Lemma reply_visible k r st :
  (∀ u, r ≠ AuthReply u) →
  visible (step (Response k r) st) = visible (exec (deliver_reply k r) st).
Proof.
  intros Hr. apply (step_visible_idle (Response k r)); simpl;
    unfold deliver_reply, exec, bind, get; simpl;
    destruct (inflight st !! k) as [[reset p| | |]|];
    destruct r as [o|o|o|u]; try destruct o; try destruct reset;
    try done; try (by destruct (Hr u eq_refl)).
Qed.

Lemma toggle_visible i state st :
  visible (step (BookmarkToggle i state) st)
    = visible (exec (handleBookmarkToggle i state) st).
Proof.
  apply (step_visible_idle (BookmarkToggle i state)); simpl;
    unfold handleBookmarkToggle, exec, bind, get; simpl;
    destruct (user st) eqn:Hu; simpl; by rewrite ?Hu.
Qed.

End Replies.

(** C2: a call of [fetchCompanies] whose request and parsing succeed
    completes normally; with [resetList] the list becomes the
    [companiesData] of the reply, otherwise the reply is appended to the
    list; the cursor and [hasMore] become those of the reply.  This is what
    the continuation does, and what the state shows after the step that
    delivers the reply to a request in flight. *)
Theorem fetchCompanies_success (resetList : bool) (data : Data.t)
    (st : AppState) :
  let resumed := exec (fetchCompanies_resume resetList (Resolved data)) st in
  let shown :=
    if resetList then Data.companiesData data
    else companies st ++ Data.companiesData data in
  completion (fetchCompanies_resume resetList (Resolved data)) st = Normal tt
  ∧ companies resumed = shown
  ∧ cursor resumed = Data.nextCursor data
  ∧ hasMore resumed = Data.hasMore data
  ∧ ∀ k p,
      inflight st !! k = Some (SearchRequest resetList p) →
      let st' := step (Response k (SearchReply (Resolved data))) st in
      companies st' = shown
      ∧ cursor st' = Data.nextCursor data
      ∧ hasMore st' = Data.hasMore data.
Proof.
  simpl. split; [done|]. split; [by destruct resetList|].
  split; [done|]. split; [done|]. intros k p Hk.
  pose proof (search_reply_visible st k resetList p (Resolved data) Hk) as Hv.
  visible_eqs Hv. rewrite Hcompanies, Hcursor, HhasMore.
  by destruct resetList.
Qed.

Lemma fetchCompanies_success_witness :
  let st' :=
    step (Response 3 (SearchReply (Resolved last_page))) (run scrolled_once) in
  companies st'
    = companies (run scrolled_once) ++ Data.companiesData last_page
  ∧ cursor st' = Data.nextCursor last_page
  ∧ hasMore st' = Data.hasMore last_page.
Proof.
  apply (proj2 (proj2 (proj2 (proj2
           (fetchCompanies_success false last_page (run scrolled_once)))))
           3%nat (search_params (Some (js "c1")) [] [])).
  vm_compute. reflexivity.
Defined.

(** C7: when the request or the parsing of its reply fails, each of the
    three fetches completes normally (the error is logged, not raised
    again) and leaves its part of the state as it was, both up to the
    [await] and after it: the list, the cursor and [hasMore] for
    [fetchCompanies]; the locations for [fetchLocations]; the bookmarked ids
    for [fetchBookmarks].  The same holds of the state after the step that
    delivers the failure. *)
Theorem fetch_failure_keeps_state (e : JsError) (resetList : bool)
    (currentCursor : option jsstring) (searchTerm locationFilter : jsstring)
    (k : nat) (st : AppState) :
  let sent :=
    exec (fetchCompanies resetList currentCursor searchTerm locationFilter)
         st in
  let failed := exec (fetchCompanies_resume resetList (Rejected e)) st in
  let st' := step (Response k (SearchReply (Rejected e))) st in
  (companies sent = companies st ∧ cursor sent = cursor st
   ∧ hasMore sent = hasMore st
   ∧ completion (fetchCompanies_resume resetList (Rejected e)) st = Normal tt
   ∧ companies failed = companies st
   ∧ cursor failed = cursor st
   ∧ hasMore failed = hasMore st
   ∧ console failed = console st ++ ["Error fetching companies:"%string]
   ∧ companies st' = companies st
   ∧ cursor st' = cursor st
   ∧ hasMore st' = hasMore st)
  ∧ (locations (exec fetchLocations st) = locations st
     ∧ completion (fetchLocations_resume (Rejected e)) st = Normal tt
     ∧ locations (exec (fetchLocations_resume (Rejected e)) st)
       = locations st
     ∧ console (exec (fetchLocations_resume (Rejected e)) st)
       = console st ++ ["Error fetching locations:"%string]
     ∧ locations (step (Response k (LocationsReply (Rejected e))) st)
       = locations st)
  ∧ (bookmarkedIds (exec fetchBookmarks st) = bookmarkedIds st
     ∧ completion (fetchBookmarks_resume (Rejected e)) st = Normal tt
     ∧ bookmarkedIds (exec (fetchBookmarks_resume (Rejected e)) st)
       = bookmarkedIds st
     ∧ console (exec (fetchBookmarks_resume (Rejected e)) st)
       = console st ++ ["Failed to fetch bookmarks"%string]
     ∧ bookmarkedIds (step (Response k (BookmarksReply (Rejected e))) st)
       = bookmarkedIds st).
Proof.
  assert (Hvs :
    visible (step (Response k (SearchReply (Rejected e))) st)
    = visible (exec (deliver_reply k (SearchReply (Rejected e))) st))
    by by apply reply_visible.
  assert (Hvl :
    visible (step (Response k (LocationsReply (Rejected e))) st)
    = visible (exec (deliver_reply k (LocationsReply (Rejected e))) st))
    by by apply reply_visible.
  assert (Hvb :
    visible (step (Response k (BookmarksReply (Rejected e))) st)
    = visible (exec (deliver_reply k (BookmarksReply (Rejected e))) st))
    by by apply reply_visible.
  simpl. split; [|split].
  - visible_eqs Hvs. rewrite Hcompanies, Hcursor, HhasMore.
    unfold deliver_reply, exec, bind, get. simpl.
    destruct (inflight st !! k) as [[reset p| | |]|]; repeat split.
  - visible_eqs Hvl. rewrite Hlocations.
    unfold deliver_reply, exec, bind, get. simpl.
    destruct (inflight st !! k) as [[reset p| | |]|]; repeat split.
  - visible_eqs Hvb. rewrite Hbookmarked.
    unfold deliver_reply, fetchBookmarks, exec, completion, bind, get. simpl.
    destruct (inflight st !! k) as [[reset p| | |]|];
      destruct (user st); repeat split.
Qed.

(** C8: every call of [fetchCompanies] raises the loading flag when it
    starts; its continuation completes normally and lowers the flag, whether
    the request succeeded or failed; so after the step that delivers the
    reply the flag is down and the request is no longer in flight. *)
Theorem fetchCompanies_loading (resetList : bool)
    (currentCursor : option jsstring) (searchTerm locationFilter : jsstring)
    (o : Outcome Data.t) (st st' : AppState) :
  loading (exec (fetchCompanies resetList currentCursor searchTerm
                   locationFilter) st) = true
  ∧ completion (fetchCompanies_resume resetList o) st' = Normal tt
  ∧ loading (exec (fetchCompanies_resume resetList o) st') = false
  ∧ ∀ k p,
      inflight st' !! k = Some (SearchRequest resetList p) →
      loading (step (Response k (SearchReply o)) st') = false
      ∧ inflight (step (Response k (SearchReply o)) st')
        = delete k (inflight st').
Proof.
  split; [reflexivity|].
  split; [apply fetchCompanies_resume_normal|].
  split; [by destruct o|]. intros k p Hk.
  pose proof (search_reply_visible st' k resetList p o Hk) as Hv.
  visible_eqs Hv. rewrite Hloading, Hinflight. by destruct o.
Qed.

Lemma fetchCompanies_loading_witness :
  let st' := run scrolled_once in
  loading (step (Response 3 (SearchReply (Rejected NetworkError))) st')
    = false
  ∧ inflight (step (Response 3 (SearchReply (Rejected NetworkError))) st')
    = delete 3%nat (inflight st').
Proof.
  apply (proj2 (proj2 (proj2
           (fetchCompanies_loading false None [] [] (Rejected NetworkError)
              mounted (run scrolled_once))))
           3%nat (search_params (Some (js "c1")) [] [])).
  vm_compute. reflexivity.
Defined.

(** ** Bookmarks *)

(** Adding or deleting one element of a set. *)
Lemma toggle_membership (ids : gset (list N)) (i : jsstring) (state : bool) :
  let ids' := if state then ids ∪ {[i]} else ids ∖ {[i]} in
  (i ∈ ids' ↔ state = true) ∧ ∀ j, j ≠ i → j ∈ ids' ↔ j ∈ ids.
Proof.
  destruct state; simpl; (split; [|intros j Hj]);
    rewrite ?elem_of_union, ?elem_of_difference, ?elem_of_singleton;
    intuition congruence.
Qed.

(** C5: without a session, [handleBookmarkToggle] leaves the set of
    bookmarked ids as it is and opens the login dialog; so does the step of
    a toggle. *)
Theorem handleBookmarkToggle_logged_out (i : jsstring) (state : bool)
    (st : AppState) :
  user st = None →
  (bookmarkedIds (exec (handleBookmarkToggle i state) st) = bookmarkedIds st
   ∧ showLoginDialog (exec (handleBookmarkToggle i state) st) = true)
  ∧ (bookmarkedIds (step (BookmarkToggle i state) st) = bookmarkedIds st
     ∧ showLoginDialog (step (BookmarkToggle i state) st) = true).
Proof.
  intros Hu. pose proof (toggle_visible i state st) as Hv. visible_eqs Hv.
  rewrite Hbookmarked, Hdialog.
  unfold exec, handleBookmarkToggle, bind, get. by rewrite Hu.
Qed.

Lemma handleBookmarkToggle_logged_out_witness :
  (bookmarkedIds (exec (handleBookmarkToggle (js "acme") true) mounted)
   = bookmarkedIds mounted
   ∧ showLoginDialog (exec (handleBookmarkToggle (js "acme") true) mounted)
     = true)
  ∧ (bookmarkedIds (step (BookmarkToggle (js "acme") true) mounted)
     = bookmarkedIds mounted
     ∧ showLoginDialog (step (BookmarkToggle (js "acme") true) mounted)
       = true).
Proof.
  apply (handleBookmarkToggle_logged_out (js "acme") true mounted).
  vm_compute. reflexivity.
Defined.

(** C6: with a session, after [handleBookmarkToggle id state], and after
    the step of the toggle, the id is in the set exactly when [state] is
    true, and the membership of every other id is as before. *)
Theorem handleBookmarkToggle_logged_in (i : jsstring) (state : bool)
    (st : AppState) :
  is_Some (user st) →
  let toggled := exec (handleBookmarkToggle i state) st in
  let st' := step (BookmarkToggle i state) st in
  ((i ∈ bookmarkedIds toggled ↔ state = true)
   ∧ ∀ j, j ≠ i → j ∈ bookmarkedIds toggled ↔ j ∈ bookmarkedIds st)
  ∧ ((i ∈ bookmarkedIds st' ↔ state = true)
     ∧ ∀ j, j ≠ i → j ∈ bookmarkedIds st' ↔ j ∈ bookmarkedIds st).
Proof.
  intros [u Hu]. simpl.
  pose proof (toggle_visible i state st) as Hv. visible_eqs Hv.
  rewrite Hbookmarked.
  unfold exec, handleBookmarkToggle, bind, get. rewrite Hu. simpl.
  pose proof (toggle_membership (bookmarkedIds st) i state) as [Hi Hj].
  by destruct state.
Qed.

Lemma handleBookmarkToggle_logged_in_witness :
  let toggled := exec (handleBookmarkToggle (js "acme") true) with_session in
  let st' := step (BookmarkToggle (js "acme") true) with_session in
  ((js "acme" ∈ bookmarkedIds toggled ↔ true = true)
   ∧ ∀ j, j ≠ js "acme" →
       j ∈ bookmarkedIds toggled ↔ j ∈ bookmarkedIds with_session)
  ∧ ((js "acme" ∈ bookmarkedIds st' ↔ true = true)
     ∧ ∀ j, j ≠ js "acme" →
         j ∈ bookmarkedIds st' ↔ j ∈ bookmarkedIds with_session).
Proof.
  apply (handleBookmarkToggle_logged_in (js "acme") true with_session).
  vm_compute. eexists. reflexivity.
Defined.

(** ** Filter changes and exhaustion *)

Section Filters.

Ltac by_event e st :=
  destruct e as [s| |l|b|k r|i state|pg| |]; simpl;
  [ | | | unfold deliver_intersection, exec, bind, get; simpl;
          destruct (observer st) as [ob|] eqn:Hob; [|try done];
          destruct (target ob) as [node|] eqn:Htarget; [|try done];
          unfold observer_callback;
          destruct (b && seen_hasMore ob) eqn:Hfire; simpl
      | unfold deliver_reply, exec, bind, get; simpl;
        destruct (inflight st !! k) as [[reset p| | |]|] eqn:Hk;
        destruct r as [o|o|o|u]; try destruct o; simpl
      | unfold handleBookmarkToggle, exec, bind, get; simpl;
        destruct (user st); simpl
      | | | ].

(** Only the debounce timer and the choice of a location change the
    filter pair; they touch neither the session nor the requests. *)
Lemma handle_filterDeps e st :
  filterDeps (exec (handle e) st) ≠ filterDeps st →
  user (exec (handle e) st) = user st
  ∧ inflight (exec (handle e) st) = inflight st.
Proof. by_event e st; try done; try destruct reset; done. Qed.

Lemma run_effects_filterDeps prev st :
  filterDeps (exec (run_effects prev) st) = filterDeps st.
Proof.
  unfold run_effects, exec, bind, get.
  repeat case_decide; simpl; try reflexivity;
    unfold user_effect, fetchBookmarks, bind, get; simpl;
    destruct (user st) eqn:Hu; simpl; rewrite ?Hu; reflexivity.
Qed.

Lemma step_filterDeps e st :
  filterDeps (step e st) = filterDeps (exec (handle e) st).
Proof.
  pose proof (step_visible e st) as Hv.
  pose proof (run_effects_filterDeps st (exec (handle e) st)) as Hf.
  visible_eqs Hv. unfold filterDeps in *. congruence.
Qed.

(** The step of a filter change: the handler, then the filter effect. *)
Lemma step_filter_change e st :
  filterDeps (step e st) ≠ filterDeps st →
  visible (step e st) = visible (exec filter_effect (exec (handle e) st))
  ∧ inflight (exec (handle e) st) = inflight st.
Proof.
  intros Hchange. rewrite step_filterDeps in Hchange.
  destruct (handle_filterDeps e st Hchange) as [Hu Hi].
  split; [|done]. rewrite step_visible.
  unfold run_effects, exec, bind, get. simpl.
  rewrite decide_False by done. simpl.
  rewrite decide_True by done. reflexivity.
Qed.

Lemma run_effects_loading prev st :
  loading st = true → loading (exec (run_effects prev) st) = true.
Proof.
  intros Hl. unfold run_effects, exec, bind, get.
  repeat case_decide; simpl; try done;
    unfold user_effect, fetchBookmarks, bind, get; simpl;
    destruct (user st) eqn:Hu; simpl; rewrite ?Hu; done.
Qed.

Lemma handle_loading e st :
  loading st = true → is_search_reply e = false →
  loading (exec (handle e) st) = true.
Proof. intros Hl He. by_event e st; try done; try destruct reset; done. Qed.

(** While no search is answered the loading flag stays raised. *)
Lemma step_loading e st :
  loading st = true → is_search_reply e = false →
  loading (step e st) = true.
Proof.
  intros Hl He. pose proof (step_visible e st) as Hv. visible_eqs Hv.
  rewrite Hloading. by apply run_effects_loading, handle_loading.
Qed.

Lemma run_from_loading evs st :
  loading st = true → Forall (λ e, is_search_reply e = false) evs →
  loading (run_from st evs) = true.
Proof.
  revert st. induction evs as [|e evs IH]; intros st Hl Hevs; [done|].
  inversion Hevs as [|? ? He Hevs']; subst. simpl.
  apply IH; [by apply step_loading|done].
Qed.

Lemma run_effects_exhausted prev st :
  filterDeps prev = filterDeps st →
  hasMore (exec (run_effects prev) st) = hasMore st
  ∧ (inflight (exec (run_effects prev) st) = inflight st
     ∨ inflight (exec (run_effects prev) st)
       = inflight st ++ [BookmarksRequest]).
Proof.
  intros Hf. unfold run_effects, exec, bind, get. simpl.
  rewrite decide_True by done. simpl.
  case_decide; simpl; [auto|].
  unfold user_effect, fetchBookmarks, bind, get. simpl.
  destruct (user st) eqn:Hu; simpl; rewrite ?Hu; simpl; auto.
Qed.

Lemma handle_exhausted e st :
  observer_fresh st → hasMore st = false →
  Forall (λ r, is_search r = false) (inflight st) →
  hasMore (exec (handle e) st) = false
  ∧ Forall (λ r, is_search r = false) (inflight (exec (handle e) st)).
Proof.
  intros Hfresh Hm Hs.
  by_event e st; try done;
    try (by pose proof (Forall_lookup_1 _ _ _ _ Hs Hk));
    try (split; [done|by apply Forall_delete]).
  destruct (Hfresh ob node Hob Htarget) as (_ & _ & Hseen & _).
  rewrite Hseen, Hm in Hfire. by destruct b.
Qed.

(** With the results exhausted and no search in flight, an event that
    leaves the filter pair alone leaves both as they are. *)
Lemma step_exhausted e st :
  observer_fresh st → hasMore st = false →
  Forall (λ r, is_search r = false) (inflight st) →
  filterDeps (step e st) = filterDeps st →
  hasMore (step e st) = false
  ∧ Forall (λ r, is_search r = false) (inflight (step e st)).
Proof.
  intros Hfresh Hm Hs Hf. rewrite step_filterDeps in Hf.
  destruct (handle_exhausted e st Hfresh Hm Hs) as [Hm' Hs'].
  destruct (run_effects_exhausted st (exec (handle e) st)) as [He Hi];
    [done|].
  pose proof (step_visible e st) as Hv. visible_eqs Hv.
  rewrite HhasMore, Hinflight, He. split; [done|].
  destruct Hi as [->| ->]; [done|].
  apply Forall_app. split; [done|]. by repeat constructor.
Qed.

Lemma run_from_exhausted evs st :
  observer_fresh st → hasMore st = false →
  Forall (λ r, is_search r = false) (inflight st) →
  fixed_filters st evs →
  hasMore (run_from st evs) = false
  ∧ Forall (λ r, is_search r = false) (inflight (run_from st evs)).
Proof.
  revert st. induction evs as [|e evs IH]; intros st Hfresh Hm Hs Hfix;
    [done|].
  destruct Hfix as [Hf Hfix]. simpl.
  destruct (step_exhausted e st Hfresh Hm Hs Hf) as [Hm' Hs'].
  apply IH; [by apply step_fresh|done..].
Qed.

Lemma elem_of_delete_other (l : list Request) k x r :
  l !! k = Some x → r ∈ l → r ≠ x → r ∈ delete k l.
Proof.
  intros Hk Hr Hne. rewrite (delete_Permutation l k x Hk) in Hr.
  by apply elem_of_cons in Hr as [->|Hr].
Qed.

Lemma handle_keeps_search e st req :
  is_search_reply e = false → is_search req = true →
  req ∈ inflight st → req ∈ inflight (exec (handle e) st).
Proof.
  intros He Hreq Hin.
  by_event e st; try done;
    try (by apply elem_of_app; left);
    try (eapply elem_of_delete_other; [done..|by intros ->]).
Qed.

Lemma run_effects_keeps prev st r :
  r ∈ inflight st → r ∈ inflight (exec (run_effects prev) st).
Proof.
  intros Hin. unfold run_effects, exec, bind, get.
  repeat case_decide; simpl; try done;
    unfold user_effect, fetchBookmarks, bind, get; simpl;
    destruct (user st) eqn:Hu; simpl; rewrite ?Hu; simpl;
    rewrite ?elem_of_app; auto.
Qed.

(** A search in flight stays in flight until a search is answered. *)
Lemma run_from_keeps_search evs st r :
  Forall (λ e, is_search_reply e = false) evs → is_search r = true →
  r ∈ inflight st → r ∈ inflight (run_from st evs).
Proof.
  revert st. induction evs as [|e evs IH]; intros st Hevs Hr Hin; [done|].
  inversion Hevs as [|? ? He Hevs']; subst. simpl.
  apply IH; [done..|].
  pose proof (step_visible e st) as Hv. visible_eqs Hv. rewrite Hinflight.
  by apply run_effects_keeps, handle_keeps_search.
Qed.

End Filters.

(** C1, as the code has it: when an event changes the debounced search or
    the location, the step sets the cursor to [null] and [hasMore] to true,
    raises the loading flag and sends a search with [resetList] true for
    the new filter pair; as long as no search is answered that search stays
    in flight, the flag stays raised and no intersection event requests a
    page; and when a successful reply to a search with [resetList] true is
    delivered, the list and the cursor become those of the reply. *)
Theorem filter_change_resets (evs : list Event) (e : Event)
    (waiting : list Event) (k : nat) (p : URLSearchParams) (data : Data.t) :
  let st := run evs in
  let st' := step e st in
  let request :=
    SearchRequest true
      (search_params None (debouncedSearch st') (location (filters st'))) in
  let later := run_from st' waiting in
  let replied := step (Response k (SearchReply (Resolved data))) later in
  filterDeps st' ≠ filterDeps st →
  Forall (λ e', is_search_reply e' = false) waiting →
  inflight later !! k = Some (SearchRequest true p) →
  (cursor st' = None ∧ hasMore st' = true ∧ loading st' = true
   ∧ inflight st' = inflight st ++ [request])
  ∧ (request ∈ inflight later
     ∧ loading later = true
     ∧ ∀ isIntersecting, step (Intersect isIntersecting) later = later)
  ∧ (companies replied = Data.companiesData data
     ∧ cursor replied = Data.nextCursor data
     ∧ hasMore replied = Data.hasMore data).
Proof.
  intros st st' request later replied Hchange Hwait Hk.
  destruct (step_filter_change e st Hchange) as [Hv Hsame].
  pose proof (step_filterDeps e st) as Hf. fold st' in Hf, Hv.
  assert (Hl : loading st' = true) by (visible_eqs Hv; by rewrite Hloading).
  assert (Hlater : loading later = true) by by apply run_from_loading.
  assert (Hsent : inflight st' = inflight st ++ [request]).
  { visible_eqs Hv. unfold filterDeps in Hf. injection Hf as Hd Hloc.
    subst request. rewrite Hd, Hloc, Hinflight. simpl. by rewrite Hsame. }
  split; [|split].
  - visible_eqs Hv. by rewrite Hcursor, HhasMore.
  - split; [|split; [done|]].
    + apply run_from_keeps_search; [done..|].
      rewrite Hsent, elem_of_app, list_elem_of_singleton. by right.
    + intros b. apply intersect_idle; [|by left].
      apply run_from_fresh, step_fresh, run_fresh.
  - pose proof (search_reply_visible later k true p (Resolved data) Hk) as Hr.
    fold replied in Hr. visible_eqs Hr. done.
Qed.

Lemma filter_change_resets_witness :
  let st := run shown_first_page in
  let st' := step (LocationInput (js "Berlin")) st in
  let request :=
    SearchRequest true
      (search_params None (debouncedSearch st') (location (filters st'))) in
  let later := run_from st' [SearchInput (js "acme"); Intersect true] in
  let replied :=
    step (Response 2 (SearchReply (Resolved last_page))) later in
  (cursor st' = None ∧ hasMore st' = true ∧ loading st' = true
   ∧ inflight st' = inflight st ++ [request])
  ∧ (request ∈ inflight later
     ∧ loading later = true
     ∧ ∀ isIntersecting, step (Intersect isIntersecting) later = later)
  ∧ (companies replied = Data.companiesData last_page
     ∧ cursor replied = Data.nextCursor last_page
     ∧ hasMore replied = Data.hasMore last_page).
Proof.
  apply (filter_change_resets shown_first_page (LocationInput (js "Berlin"))
           [SearchInput (js "acme"); Intersect true] 2
           (search_params None [] (js "Berlin")) last_page).
  - vm_compute. discriminate.
  - repeat constructor.
  - vm_compute. reflexivity.
Defined.

(** C1, as stated, fails when the search started by the change fails: the
    list is still the one shown before the change (two companies fetched
    without a location) when the last card, scrolled into view, requests a
    page for the new location. *)
Lemma filter_change_list_not_replaced :
  let before := run shown_first_page in
  let st := run location_chosen_search_failed in
  filterDeps before = ([], [])
  ∧ filterDeps st = ([], js "Berlin")
  ∧ companies st = companies before
  ∧ companies st = [company "acme"; company "bolt"]
  ∧ inflight st = [LocationsRequest; AuthRequest]
  ∧ inflight (step (Intersect true) st)
    = [LocationsRequest; AuthRequest;
       SearchRequest false
         [("limit"%string, js "20"); ("location"%string, js "Berlin")]].
Proof. vm_compute. repeat split. Qed.

(** C9, as the code has it: once [hasMore] is false and no search is in
    flight, it stays false, and no search is sent, for as long as the
    events leave the debounced search and the location as they are; an
    event that changes one of them sets it to true again. *)
Theorem hasMore_stays_false (evs later : list Event) (e : Event) :
  let st := run evs in
  let st' := run_from st later in
  hasMore st = false →
  Forall (λ r, is_search r = false) (inflight st) →
  fixed_filters st later →
  hasMore st' = false
  ∧ Forall (λ r, is_search r = false) (inflight st')
  ∧ (filterDeps (step e st') ≠ filterDeps st' → hasMore (step e st') = true).
Proof.
  intros st st' Hm Hs Hfix.
  destruct (run_from_exhausted later st (run_fresh evs) Hm Hs Hfix)
    as [Hm' Hs'].
  split; [done|]. split; [done|]. intros Hchange.
  destruct (step_filter_change e st' Hchange) as [Hv _].
  visible_eqs Hv. by rewrite HhasMore.
Qed.

Lemma hasMore_stays_false_witness :
  let st := run shown_all in
  let st' := run_from st idling in
  hasMore st' = false
  ∧ Forall (λ r, is_search r = false) (inflight st')
  ∧ (filterDeps (step (LocationInput (js "Berlin")) st') ≠ filterDeps st' →
     hasMore (step (LocationInput (js "Berlin")) st') = true).
Proof.
  apply (hasMore_stays_false shown_all idling (LocationInput (js "Berlin"))).
  - vm_compute. reflexivity.
  - vm_compute. repeat constructor.
  - vm_compute. repeat split.
Defined.

(** C9, as stated, fails for a reply that is still in flight: the mount
    sends two searches for the same, empty, filter pair; after the first
    reply and a scroll to the end [hasMore] is false; then the second reply
    arrives, the filters being what they were, and sets it to true. *)
Lemma hasMore_back_to_true :
  let st := run scrolled_to_end in
  let st' := step (Response 0 (SearchReply (Resolved first_page))) st in
  hasMore st = false
  ∧ inflight st !! 0%nat = Some (SearchRequest true [("limit"%string, js "20")])
  ∧ filters st' = filters st
  ∧ filterDeps st' = filterDeps st
  ∧ hasMore st' = true.
Proof. vm_compute. repeat split. Qed.


(** * Further properties *)

(** ** White space in the search term and the location *)

Section Whitespace.

Lemma trimStart_app_space (pre s : jsstring) :
  forallb is_js_whitespace pre = true → trimStart (pre ++ s) = trimStart s.
Proof.
  induction pre as [|c pre IH]; simpl; [done|].
  intros [Hc Hpre]%andb_true_iff. rewrite Hc. by apply IH.
Qed.

Lemma trimStart_nil_space (s : jsstring) :
  trimStart s = [] ↔ forallb is_js_whitespace s = true.
Proof.
  induction s as [|c s IH]; simpl; [done|].
  destruct (is_js_whitespace c); simpl; [done|]. split; discriminate.
Qed.

Lemma trimStart_app_rest (s post : jsstring) :
  trimStart s ≠ [] → trimStart (s ++ post) = trimStart s ++ post.
Proof.
  induction s as [|c s IH]; simpl; [done|].
  destruct (is_js_whitespace c); [apply IH|done].
Qed.

Lemma trimEnd_app_space (s post : jsstring) :
  forallb is_js_whitespace post = true → trimEnd (s ++ post) = trimEnd s.
Proof.
  intros Hpost. unfold trimEnd. rewrite rev_app_distr.
  rewrite trimStart_app_space; [done|].
  rewrite forallb_forall in *. intros x Hx. apply Hpost. by apply in_rev.
Qed.

Lemma trimStart_keeps (s : jsstring) :
  (∀ c, head s = Some c → is_js_whitespace c = false) → trimStart s = s.
Proof.
  destruct s as [|c s]; simpl; [done|]. intros Hc. by rewrite (Hc c).
Qed.

Lemma head_rev_last (s : jsstring) : head (rev s) = last s.
Proof.
  induction s as [|c s IH] using rev_ind; [done|].
  by rewrite rev_app_distr, last_snoc.
Qed.

Lemma trimEnd_keeps (s : jsstring) :
  (∀ c, last s = Some c → is_js_whitespace c = false) → trimEnd s = s.
Proof.
  intros Hc. unfold trimEnd. rewrite trimStart_keeps.
  - apply rev_involutive.
  - intros c. rewrite head_rev_last. apply Hc.
Qed.

(** White space around a string does not change what [trim] returns. *)
Lemma trim_padded (pre s post : jsstring) :
  forallb is_js_whitespace pre = true →
  forallb is_js_whitespace post = true →
  trim (pre ++ s ++ post) = trim s.
Proof.
  intros Hpre Hpost. unfold trim. rewrite trimStart_app_space by done.
  destruct (trimStart s) as [|c t] eqn:Hs.
  - apply trimStart_nil_space in Hs.
    assert (Hall : forallb is_js_whitespace (s ++ post) = true)
      by (rewrite forallb_app, Hs, Hpost; done).
    apply trimStart_nil_space in Hall. by rewrite Hall.
  - rewrite trimStart_app_rest by (by rewrite Hs).
    rewrite Hs. by apply trimEnd_app_space.
Qed.

Lemma trim_idempotent (s : jsstring) : trim (trim s) = trim s.
Proof.
  destruct (trim_spec s) as (_ & Hhead & Hlast).
  unfold trim at 1. rewrite trimStart_keeps by done.
  by apply trimEnd_keeps.
Qed.

Lemma trim_space (s : jsstring) :
  forallb is_js_whitespace s = true → trim s = [].
Proof.
  intros Hs. unfold trim. apply trimStart_nil_space in Hs. by rewrite Hs.
Qed.

End Whitespace.

(** X1: the query of [fetchCompanies] does not see white space around the
    search term or the location: padding either of them with white space,
    or passing the trimmed values, gives the same request. *)
Theorem fetchCompanies_query_padding (resetList : bool)
    (currentCursor : option jsstring)
    (searchTerm locationFilter pre post pre' post' : jsstring)
    (st : AppState) :
  forallb is_js_whitespace pre = true →
  forallb is_js_whitespace post = true →
  forallb is_js_whitespace pre' = true →
  forallb is_js_whitespace post' = true →
  exec (fetchCompanies resetList currentCursor (pre ++ searchTerm ++ post)
          (pre' ++ locationFilter ++ post')) st
    = exec (fetchCompanies resetList currentCursor searchTerm locationFilter)
           st
  ∧ exec (fetchCompanies resetList currentCursor (trim searchTerm)
            (trim locationFilter)) st
    = exec (fetchCompanies resetList currentCursor searchTerm locationFilter)
           st.
Proof.
  intros Hpre Hpost Hpre' Hpost'.
  unfold exec, fetchCompanies, bind, send, setInflight, setLoading,
    search_params, search_object, spread_trimmed. simpl.
  by rewrite !trim_padded, !trim_idempotent by done.
Qed.

Lemma fetchCompanies_query_padding_witness :
  exec (fetchCompanies true None (js "  " ++ js "acme" ++ js " ")
          ([0x00A0] ++ js "Berlin" ++ [0x3000; 10])) mounted
    = exec (fetchCompanies true None (js "acme") (js "Berlin")) mounted
  ∧ exec (fetchCompanies true None (trim (js "acme")) (trim (js "Berlin")))
         mounted
    = exec (fetchCompanies true None (js "acme") (js "Berlin")) mounted.
Proof.
  apply (fetchCompanies_query_padding true None (js "acme") (js "Berlin")
           (js "  ") (js " ") [0x00A0] [0x3000; 10] mounted);
    vm_compute; reflexivity.
Defined.

(** X2: a search term or a location that is empty or all white space is
    left out of the query, whatever the other arguments; with both left out
    and no cursor the query is just limit=20. *)
Theorem fetchCompanies_query_blank (currentCursor : option jsstring)
    (searchTerm locationFilter : jsstring) :
  (forallb is_js_whitespace searchTerm = true →
   params_get "search"
     (search_params currentCursor searchTerm locationFilter) = None)
  ∧ (forallb is_js_whitespace locationFilter = true →
     params_get "location"
       (search_params currentCursor searchTerm locationFilter) = None)
  ∧ (forallb is_js_whitespace searchTerm = true →
     forallb is_js_whitespace locationFilter = true →
     search_params None searchTerm locationFilter
       = [("limit"%string, js "20")]).
Proof.
  split; [|split].
  - intros Hs. destruct (params_get _ _) as [v|] eqn:Hv; [|done].
    apply search_params_search in Hv as [Hne Hv].
    by rewrite trim_space in Hne.
  - intros Hl. destruct (params_get _ _) as [v|] eqn:Hv; [|done].
    apply search_params_location in Hv as [Hne Hv].
    by rewrite trim_space in Hne.
  - intros Hs Hl. unfold search_params, search_object, spread_trimmed.
    by rewrite !trim_space.
Qed.

Lemma fetchCompanies_query_blank_witness :
  search_params None (js "  ") [9; 0x2003] = [("limit"%string, js "20")].
Proof.
  apply (proj2 (proj2 (fetchCompanies_query_blank None (js "  ")
                         [9; 0x2003]))); vm_compute; reflexivity.
Defined.

(** ** When scrolling fetches *)

Section Attached.

Lemma lastCard_visible st st' :
  visible st = visible st' → lastCard st = lastCard st'.
Proof. intros Hv. visible_eqs Hv. unfold lastCard. by rewrite Hpage, Hcompanies. Qed.

Lemma lastCompanyRef_attaches st node :
  lastCard st = Some node →
  observer_attached (exec (lastCompanyRef (refDeps st) (Some node)) st).
Proof.
  intros Hcard n. unfold refDeps, lastCompanyRef, exec.
  destruct (loading st) eqn:Hl; simpl.
  - by rewrite Hl.
  - unfold lastCard in *. simpl. rewrite Hcard. intros [= <-] _. eauto.
Qed.

Lemma commit_attached prev st :
  observer_attached prev → observer st = observer prev →
  observer_attached (exec (commit prev) st).
Proof.
  intros Hatt Hobs. unfold commit.
  rewrite (exec_bind _ _ st) by reflexivity.
  change (exec (get (λ st0, st0)) st) with st.
  destruct (lastCard prev) as [node'|] eqn:Hprev;
    destruct (lastCard st) as [node|] eqn:Hnow.
  - case_decide as Hsame.
    + destruct Hsame as [Hdeps ->]. change (exec (ret tt) st) with st.
      intros n Hn Hl. rewrite Hobs. apply Hatt; [congruence|].
      unfold refDeps in Hdeps. injection Hdeps as E1 E2 E3 E4 E5. congruence.
    + rewrite (exec_bind _ _ tt) by apply lastCompanyRef_normal.
      pose proof (lastCompanyRef_visible (refDeps prev) None st) as Hv.
      set (st' := exec (lastCompanyRef (refDeps prev) None) st) in *.
      assert (Hdeps : refDeps st' = refDeps st).
      { visible_eqs Hv. unfold refDeps. congruence. }
      rewrite <- Hdeps. apply lastCompanyRef_attaches.
      by rewrite (lastCard_visible _ _ Hv).
  - pose proof (lastCompanyRef_visible (refDeps prev) None st) as Hv.
    intros n Hn. rewrite (lastCard_visible _ _ Hv) in Hn. congruence.
  - by apply lastCompanyRef_attaches.
  - intros n Hn. change (exec (ret tt) st) with st in Hn. congruence.
Qed.

Lemma step_attached e st : observer_attached st → observer_attached (step e st).
Proof.
  intros Hatt. rewrite step_phases.
  apply commit_attached.
  - apply commit_attached; [done|apply handle_observer].
  - apply run_effects_observer.
Qed.

Lemma run_from_attached evs st :
  observer_attached st → observer_attached (run_from st evs).
Proof.
  revert st. induction evs as [|e evs IH]; intros st Hatt; [done|].
  simpl. apply IH. by apply step_attached.
Qed.

Lemma run_attached evs : observer_attached (run evs).
Proof.
  apply run_from_attached. intros node Hn. vm_compute in Hn. discriminate Hn.
Qed.

End Attached.

Lemma lastCard_is_Some st :
  is_Some (lastCard st) ↔ currentPage st = home ∧ companies st ≠ [].
Proof.
  unfold lastCard. destruct (currentPage st).
  - rewrite last_is_Some. destruct (companies st); simpl;
      intuition congruence.
  - split; [by intros [? ?]|by intros [? _]].
Qed.

(** X3: in every state the application reaches, an intersection event
    requests the next page exactly when the entry intersects, [hasMore] is
    true, nothing is loading, and the results page shows at least one
    company; the request then is for the current cursor and filter pair, and
    the loading flag is raised.  In every other case the event leaves the
    state as it is. *)
Theorem scroll_fetches_exactly_when (evs : list Event)
    (isIntersecting : bool) :
  let st := run evs in
  let st' := step (Intersect isIntersecting) st in
  let ready :=
    isIntersecting = true ∧ hasMore st = true ∧ loading st = false
    ∧ currentPage st = home ∧ companies st ≠ [] in
  (ready →
   inflight st'
   = inflight st
       ++ [SearchRequest false
             (search_params (cursor st) (debouncedSearch st)
                (location (filters st)))]
   ∧ loading st' = true
   ∧ companies st' = companies st
   ∧ cursor st' = cursor st)
  ∧ (¬ ready → st' = st).
Proof.
  cbv zeta. generalize (run_fresh evs), (run_attached evs).
  generalize (run evs). intros st Hfresh Hatt.
  pose proof (deliver_intersection_cases isIntersecting st Hfresh) as Hcases.
  split.
  - intros (Hb & Hm & Hl & Hpage & Hne).
    destruct (proj2 (lastCard_is_Some st) (conj Hpage Hne)) as [node Hnode].
    destruct (Hatt node Hnode Hl) as (ob & Hob & Ht).
    destruct Hcases as [(_ & Hwhy)|(Hreq & _)].
    { destruct Hwhy as [?|[?|[?|[?|[?|(ob' & Hob' & Ht')]]]]];
        congruence. }
    pose proof (step_visible_idle (Intersect isIntersecting) st) as Hv.
    simpl in Hv. rewrite Hreq in Hv. specialize (Hv eq_refl eq_refl).
    visible_eqs Hv.
    by rewrite Hinflight, Hloading, Hcompanies, Hcursor.
  - intros Hnot. destruct Hcases as [(Hsame & _)|(_ & Hb & Hm & Hl & Hc)].
    + by apply step_idle.
    + destruct Hnot. apply lastCard_is_Some in Hc as [? ?]. done.
Qed.

Lemma scroll_fetches_exactly_when_witness :
  let st := run [Response 0 (SearchReply (Resolved first_page))] in
  let st' := step (Intersect true) st in
  inflight st'
  = inflight st
      ++ [SearchRequest false
            (search_params (cursor st) (debouncedSearch st)
               (location (filters st)))]
  ∧ loading st' = true
  ∧ companies st' = companies st
  ∧ cursor st' = cursor st.
Proof.
  apply (proj1 (scroll_fetches_exactly_when
                  [Response 0 (SearchReply (Resolved first_page))] true)).
  vm_compute. repeat split. discriminate.
Defined.

(** ** The requests in flight *)

Ltac event_cases e st :=
  destruct e as [s| |l|b|k r|i state|pg| |]; simpl;
  [ | | | unfold deliver_intersection, exec, bind, get; simpl;
          destruct (observer st) as [ob|] eqn:Hob;
          [ destruct (target ob) as [node|] eqn:Htarget;
            [ unfold observer_callback;
              destruct (b && seen_hasMore ob) eqn:Hfire; simpl | ] | ]
      | unfold deliver_reply, exec, bind, get; simpl;
        destruct (inflight st !! k) as [[reset p| | |]|] eqn:Hk;
        destruct r as [o|o|o|u]; try destruct o; simpl
      | unfold handleBookmarkToggle, exec, bind, get; simpl;
        destruct (user st) eqn:Huser; simpl
      | | | ].

Ltac effect_cases st :=
  unfold run_effects, exec, bind, get; simpl;
  repeat case_decide; simpl;
  unfold user_effect, fetchBookmarks, bind, get; simpl;
  destruct (user st) eqn:Huser; simpl; rewrite ?Huser; simpl.


Section Requests.

(** A handler sends nothing but the request of the next page. *)
Lemma handle_sends e st req :
  req ∈ inflight (exec (handle e) st) →
  req ∈ inflight st ∨ ∃ c s l, req = SearchRequest false (search_params c s l).
Proof.
  event_cases e st; intros Hin; auto;
    try (by left; eapply list_elem_of_delete_inv).
  apply elem_of_app in Hin as [Hin|Hin%list_elem_of_singleton]; eauto.
Qed.

(** The effects send nothing but a search that resets the list and the
    request of the bookmarks. *)
Lemma run_effects_sends prev st req :
  req ∈ inflight (exec (run_effects prev) st) →
  req ∈ inflight st
  ∨ (∃ s l, req = SearchRequest true (search_params None s l))
  ∨ req = BookmarksRequest.
Proof.
  intros Hin. revert Hin. effect_cases st; intros Hin; auto;
    repeat (apply elem_of_app in Hin as [Hin|Hin%list_elem_of_singleton]);
    eauto.
Qed.

Lemma step_sends e st req :
  req ∈ inflight (step e st) →
  req ∈ inflight st
  ∨ (∃ resetList c s l,
       req = SearchRequest resetList (search_params c s l)
       ∧ (resetList = true → c = None))
  ∨ req = BookmarksRequest.
Proof.
  pose proof (step_visible e st) as Hv. visible_eqs Hv. rewrite Hinflight.
  intros [Hin|[(s & l & ->)| ->]]%run_effects_sends; [|right; left|by auto].
  - apply handle_sends in Hin as [Hin|(c & s & l & ->)]; [by left|].
    right. left. by exists false, c, s, l.
  - by exists true, None, s, l.
Qed.

Lemma search_params_well_formed resetList c s l :
  (resetList = true → c = None) →
  well_formed (SearchRequest resetList (search_params c s l)).
Proof.
  intros Hc. split; [done|]. intros ->%Hc.
  unfold search_params, search_object, spread_trimmed. simpl.
  by destruct (truthy (trim s)), (truthy (trim l)).
Qed.

Lemma run_from_well_formed evs st :
  Forall well_formed (inflight st) →
  Forall well_formed (inflight (run_from st evs)).
Proof.
  revert st. induction evs as [|e evs IH]; intros st Hwf; [done|].
  simpl. apply IH. apply Forall_forall. intros req Hin.
  apply step_sends in Hin as [Hin|[(reset & c & s & l & -> & Hc)| ->]].
  - by apply (proj1 (Forall_forall _ _) Hwf).
  - by apply search_params_well_formed.
  - done.
Qed.

End Requests.

(** X4: in every state the application reaches, every search in flight asks
    for twenty companies, and every search that will replace the list
    carries no cursor: a reset always starts from the first page. *)
Theorem requests_well_formed (evs : list Event) :
  Forall well_formed (inflight (run evs)).
Proof.
  apply run_from_well_formed. vm_compute. by repeat constructor.
Qed.

Section Loading.

Lemma Exists_delete_other (P : Request → Prop) (l : list Request) k x :
  l !! k = Some x → ¬ P x → Exists P l → Exists P (delete k l).
Proof.
  intros Hk Hx (y & Hy & HP)%Exists_exists. apply Exists_exists.
  exists y. split; [|done].
  eapply elem_of_delete_other; [done..|]. by intros ->.
Qed.

Lemma handle_loading_search e st :
  (loading st = true → Exists (λ r, is_search r = true) (inflight st)) →
  loading (exec (handle e) st) = true →
  Exists (λ r, is_search r = true) (inflight (exec (handle e) st)).
Proof.
  event_cases e st; intros Hinv Hl; auto;
    try (by eapply Exists_delete_other; [done| |auto]).
  apply Exists_app. right. by repeat constructor.
Qed.

Lemma run_effects_loading_search prev st :
  (loading st = true → Exists (λ r, is_search r = true) (inflight st)) →
  loading (exec (run_effects prev) st) = true →
  Exists (λ r, is_search r = true) (inflight (exec (run_effects prev) st)).
Proof.
  effect_cases st; intros Hinv Hl; auto;
    rewrite ?Exists_app; auto;
    right; by repeat constructor.
Qed.

Lemma run_from_loading_search evs st :
  (loading st = true → Exists (λ r, is_search r = true) (inflight st)) →
  loading (run_from st evs) = true →
  Exists (λ r, is_search r = true) (inflight (run_from st evs)).
Proof.
  revert st. induction evs as [|e evs IH]; intros st Hinv; [done|].
  simpl. apply IH.
  pose proof (step_visible e st) as Hv. visible_eqs Hv.
  rewrite Hloading, Hinflight.
  by apply run_effects_loading_search, handle_loading_search.
Qed.

End Loading.

(** X5: in every state the application reaches, the loading flag is raised
    only while the reply to some search is outstanding: an answered or
    failed search can not leave the flag up. *)
Theorem loading_has_search_in_flight (evs : list Event) :
  loading (run evs) = true →
  Exists (λ r, is_search r = true) (inflight (run evs)).
Proof.
  apply run_from_loading_search. intros _. vm_compute. by repeat constructor.
Qed.

Lemma loading_has_search_in_flight_witness :
  Exists (λ r, is_search r = true) (inflight (run scrolled_once)).
Proof.
  apply (loading_has_search_in_flight scrolled_once).
  vm_compute. reflexivity.
Defined.

(** ** Requests made once *)

Section Once.

Lemma count_snoc (r x : Request) (l : list Request) :
  length (filter (λ y, y = r) (l ++ [x]))
  = (length (filter (λ y, y = r) l) + if decide (x = r) then 1 else 0)%nat.
Proof.
  rewrite filter_app, length_app. f_equal.
  rewrite filter_cons, filter_nil. by case_decide.
Qed.

Lemma count_delete (r x : Request) (l : list Request) k :
  l !! k = Some x →
  length (filter (λ y, y = r) l)
  = ((if decide (x = r) then 1 else 0)
     + length (filter (λ y, y = r) (delete k l)))%nat.
Proof.
  intros Hk. rewrite (delete_Permutation l k x Hk) at 1.
  rewrite filter_cons. by case_decide.
Qed.

(** No handler and no effect sends the request of the locations or the
    session check. *)
Lemma handle_sends_once e st req :
  req = LocationsRequest ∨ req = AuthRequest →
  (in_flight req (exec (handle e) st) ≤ in_flight req st)%nat.
Proof.
  unfold in_flight.
  event_cases e st; intros Hr; try done;
    try (rewrite (count_delete req _ (inflight st) k Hk); lia).
  rewrite count_snoc. destruct Hr as [-> | ->];
    rewrite decide_False by done; lia.
Qed.

Lemma run_effects_sends_once prev st r :
  r = LocationsRequest ∨ r = AuthRequest →
  in_flight r (exec (run_effects prev) st) = in_flight r st.
Proof.
  unfold in_flight.
  effect_cases st; intros Hr; try done; rewrite ?count_snoc;
    destruct Hr as [-> | ->]; rewrite ?decide_False by done; lia.
Qed.

Lemma step_sends_once e st r :
  r = LocationsRequest ∨ r = AuthRequest →
  (in_flight r (step e st) ≤ in_flight r st)%nat.
Proof.
  intros Hr. pose proof (step_visible e st) as Hv. visible_eqs Hv.
  unfold in_flight at 1. rewrite Hinflight.
  fold (in_flight r (exec (run_effects st) (exec (handle e) st))).
  rewrite run_effects_sends_once by done. by apply handle_sends_once.
Qed.

Lemma run_from_sends_once evs st r :
  r = LocationsRequest ∨ r = AuthRequest →
  (in_flight r (run_from st evs) ≤ in_flight r st)%nat.
Proof.
  intros Hr. revert st. induction evs as [|e evs IH]; intros st; [done|].
  simpl. etrans; [apply IH|]. by apply step_sends_once.
Qed.

(** The locations change only by the reply to their request, which leaves
    none in flight if it was the only one. *)
Lemma step_locations e st :
  locations (step e st) ≠ locations st →
  (in_flight LocationsRequest (step e st)
   < in_flight LocationsRequest st)%nat.
Proof.
  pose proof (step_visible e st) as Hv. visible_eqs Hv.
  unfold in_flight at 1. rewrite Hlocations, Hinflight.
  fold (in_flight LocationsRequest
          (exec (run_effects st) (exec (handle e) st))).
  rewrite run_effects_sends_once by auto.
  assert (Heff : ∀ s, locations (exec (run_effects st) s) = locations s).
  { intros s0. clear. effect_cases s0; done. }
  rewrite Heff. clear. unfold in_flight.
  event_cases e st; intros Hl; try done.
  rewrite (count_delete LocationsRequest _ (inflight st) k Hk).
  rewrite decide_True by done. lia.
Qed.

End Once.

(** X6: the locations and the session are requested once, at the mount, and
    never again, whatever happens (no retry after a failure): in every state
    the application reaches at most one request of each is in flight and no
    event adds one; and once an event has changed the list of locations, no
    later event changes it again. *)
Theorem locations_requested_once (evs later : list Event) (e e' : Event) :
  let st := run evs in
  let st' := run_from (step e st) later in
  ((in_flight LocationsRequest st ≤ 1)%nat
   ∧ (in_flight AuthRequest st ≤ 1)%nat
   ∧ (in_flight LocationsRequest (step e st)
      ≤ in_flight LocationsRequest st)%nat
   ∧ (in_flight AuthRequest (step e st) ≤ in_flight AuthRequest st)%nat)
  ∧ (locations (step e st) ≠ locations st →
     locations (step e' st') = locations st').
Proof.
  intros st st'.
  assert (Hloc : (in_flight LocationsRequest st ≤ 1)%nat).
  { etrans; [apply run_from_sends_once; auto|]. by vm_compute. }
  split; [split; [done|split; [|split]]|].
  - etrans; [apply run_from_sends_once; auto|]. by vm_compute.
  - apply step_sends_once. auto.
  - apply step_sends_once. auto.
  - intros Hchange%step_locations.
    destruct (decide (locations (step e' st') = locations st'))
      as [|Hagain%step_locations]; [done|].
    pose proof (run_from_sends_once later (step e st) LocationsRequest) as H.
    fold st' in H. specialize (H (or_introl eq_refl)). lia.
Qed.

Lemma locations_requested_once_witness :
  let st := run shown_first_page in
  let e := Response 0 (LocationsReply (Resolved [js "Berlin"; js "Oslo"])) in
  let st' := run_from (step e st) idling in
  locations (step (Response 0 (LocationsReply (Resolved []))) st')
  = locations st'.
Proof.
  apply (proj2 (locations_requested_once shown_first_page idling
                  (Response 0 (LocationsReply
                                 (Resolved [js "Berlin"; js "Oslo"])))
                  (Response 0 (LocationsReply (Resolved []))))).
  vm_compute. discriminate.
Defined.

(** ** Session and bookmarks *)

Section Session.

Lemma handle_logged_out e st :
  is_login e = false →
  user st = None → bookmarkedIds st = ∅ → BookmarksRequest ∉ inflight st →
  user (exec (handle e) st) = None
  ∧ bookmarkedIds (exec (handle e) st) = ∅
  ∧ BookmarksRequest ∉ inflight (exec (handle e) st).
Proof.
  event_cases e st; intros He Hu Hb Hr; try done;
    try (by destruct Hr; eapply list_elem_of_lookup_2);
    try (by repeat split; try done;
            intros Hin%list_elem_of_delete_inv);
    try congruence.
  all: repeat split; try done; try (by destruct u);
    try (by intros Hin%list_elem_of_delete_inv).
  intros [Hin|Hin%list_elem_of_singleton]%elem_of_app; done.
Qed.

Lemma run_effects_logged_out prev st :
  user prev = None → user st = None →
  BookmarksRequest ∉ inflight st →
  user (exec (run_effects prev) st) = None
  ∧ bookmarkedIds (exec (run_effects prev) st) = bookmarkedIds st
  ∧ BookmarksRequest ∉ inflight (exec (run_effects prev) st).
Proof.
  effect_cases st; intros Hp Hu Hr; try done; try congruence.
  repeat split; try done.
  intros [Hin|Hin%list_elem_of_singleton]%elem_of_app; done.
Qed.

Lemma run_from_logged_out evs st :
  Forall (λ e, is_login e = false) evs →
  user st = None → bookmarkedIds st = ∅ → BookmarksRequest ∉ inflight st →
  user (run_from st evs) = None
  ∧ bookmarkedIds (run_from st evs) = ∅
  ∧ BookmarksRequest ∉ inflight (run_from st evs).
Proof.
  revert st. induction evs as [|e evs IH]; intros st Hevs Hu Hb Hr; [done|].
  inversion Hevs as [|? ? He Hevs']; subst. simpl.
  destruct (handle_logged_out e st He Hu Hb Hr) as (Hu' & Hb' & Hr').
  destruct (run_effects_logged_out st (exec (handle e) st) Hu Hu' Hr')
    as (Hu'' & Hb'' & Hr'').
  pose proof (step_visible e st) as Hv. visible_eqs Hv.
  apply IH; [done|congruence|congruence|by rewrite Hinflight].
Qed.

End Session.

(** X7: as long as no session check has been answered with a user, there
    is no session, the set of bookmarked ids is empty and the bookmarks are
    never requested, whatever else happens (toggles included). *)
Theorem logged_out_has_no_bookmarks (evs : list Event) :
  Forall (λ e, is_login e = false) evs →
  user (run evs) = None
  ∧ bookmarkedIds (run evs) = ∅
  ∧ BookmarksRequest ∉ inflight (run evs).
Proof.
  intros Hevs. apply run_from_logged_out; [done|done|done|].
  vm_compute. intros Hin.
  repeat (apply elem_of_cons in Hin as [Hin|Hin]; [discriminate Hin|]).
  by apply elem_of_nil in Hin.
Qed.

Lemma logged_out_has_no_bookmarks_witness :
  let evs := shown_first_page
               ++ [BookmarkToggle (js "acme") true;
                   Response 1 (AuthReply None);
                   BookmarkToggle (js "bolt") true] in
  user (run evs) = None
  ∧ bookmarkedIds (run evs) = ∅
  ∧ BookmarksRequest ∉ inflight (run evs).
Proof.
  apply (logged_out_has_no_bookmarks
           (shown_first_page
              ++ [BookmarkToggle (js "acme") true;
                  Response 1 (AuthReply None);
                  BookmarkToggle (js "bolt") true])).
  vm_compute. repeat constructor.
Defined.

(** X8: the reply to the session check sets the session; when it brings a
    user where there was none, the bookmarks are requested, exactly once;
    when it brings none, nothing is requested.  The set of bookmarked ids
    is not touched by the reply. *)
Theorem session_reply_fetches_bookmarks (st : AppState) (k : nat)
    (u : option User.t) :
  inflight st !! k = Some AuthRequest →
  user st = None →
  let st' := step (Response k (AuthReply u)) st in
  user st' = u
  ∧ inflight st'
    = delete k (inflight st)
        ++ match u with Some _ => [BookmarksRequest] | None => [] end
  ∧ bookmarkedIds st' = bookmarkedIds st
  ∧ companies st' = companies st.
Proof.
  intros Hk Hu. simpl.
  pose proof (step_visible (Response k (AuthReply u)) st) as Hv.
  visible_eqs Hv. rewrite Huser, Hinflight, Hbookmarked, Hcompanies.
  simpl. unfold deliver_reply, run_effects, exec, bind, get. simpl. rewrite Hk.
  simpl. rewrite decide_True by done. simpl. rewrite Hu.
  destruct u as [u|]; simpl; [done|]. by rewrite app_nil_r.
Qed.

Lemma session_reply_fetches_bookmarks_witness :
  let u := Some {| User.name := js "ada";
                   User.profile_picture := js "ada.png" |} in
  let st' := step (Response 3 (AuthReply u)) mounted in
  user st' = u
  ∧ inflight st'
    = delete 3%nat (inflight mounted) ++ [BookmarksRequest]
  ∧ bookmarkedIds st' = bookmarkedIds mounted
  ∧ companies st' = companies mounted.
Proof.
  apply (session_reply_fetches_bookmarks mounted 3
           (Some {| User.name := js "ada";
                    User.profile_picture := js "ada.png" |}));
    vm_compute; reflexivity.
Defined.

(** X9: a successful reply to the request of the bookmarks replaces the
    set of bookmarked ids by the ids of the reply (an id is bookmarked
    exactly when the reply lists it), so that ids toggled before the reply
    and not listed by the server are lost; the request is no longer in
    flight and the list of companies is untouched. *)
Theorem bookmarks_reply_replaces (st : AppState) (k : nat)
    (bookmarkedCompanyIds : list jsstring) :
  inflight st !! k = Some BookmarksRequest →
  let st' :=
    step (Response k (BookmarksReply (Resolved bookmarkedCompanyIds))) st in
  (∀ i, i ∈ bookmarkedIds st' ↔ i ∈ bookmarkedCompanyIds)
  ∧ inflight st' = delete k (inflight st)
  ∧ companies st' = companies st
  ∧ user st' = user st.
Proof.
  intros Hk. simpl.
  pose proof (reply_visible k
                (BookmarksReply (Resolved bookmarkedCompanyIds)) st) as Hv.
  assert (Hno : ∀ u,
    BookmarksReply (Resolved bookmarkedCompanyIds) ≠ AuthReply u) by done.
  specialize (Hv Hno). visible_eqs Hv.
  rewrite Hbookmarked, Hinflight, Hcompanies, Huser.
  unfold deliver_reply, exec, bind, get. simpl. rewrite Hk. simpl.
  split; [|done]. intros i. apply elem_of_list_to_set.
Qed.

Lemma bookmarks_reply_replaces_witness :
  let st := step (BookmarkToggle (js "acme") true) with_session in
  let st' := step (Response 3 (BookmarksReply (Resolved [js "bolt"]))) st in
  (∀ i, i ∈ bookmarkedIds st' ↔ i ∈ [js "bolt"])
  ∧ inflight st' = delete 3%nat (inflight st)
  ∧ companies st' = companies st
  ∧ user st' = user st.
Proof.
  apply (bookmarks_reply_replaces
           (step (BookmarkToggle (js "acme") true) with_session) 3
           [js "bolt"]).
  vm_compute. reflexivity.
Defined.

Section Toggles.

Lemma toggle_bookmarkedIds i state st :
  is_Some (user st) →
  bookmarkedIds (step (BookmarkToggle i state) st)
  = (if state then bookmarkedIds st ∪ {[i]} else bookmarkedIds st ∖ {[i]})
  ∧ user (step (BookmarkToggle i state) st) = user st.
Proof.
  intros [u Hu]. pose proof (toggle_visible i state st) as Hv.
  visible_eqs Hv. rewrite Hbookmarked, Huser.
  unfold exec, handleBookmarkToggle, bind, get. by rewrite Hu.
Qed.

Ltac set_members :=
  apply set_eq; intros x;
  repeat first [ rewrite elem_of_union | rewrite elem_of_difference
               | rewrite elem_of_singleton ].

Lemma gset_toggle_twice (ids : gset (list N)) (i : jsstring) :
  ids ∪ {[i]} ∪ {[i]} = ids ∪ {[i]} ∧ ids ∖ {[i]} ∖ {[i]} = ids ∖ {[i]}.
Proof. split; set_members; intuition congruence. Qed.

Lemma gset_toggle_undo (ids : gset (list N)) (i : jsstring) :
  (i ∉ ids → (ids ∪ {[i]}) ∖ {[i]} = ids)
  ∧ (i ∈ ids → ids ∖ {[i]} ∪ {[i]} = ids).
Proof.
  split; intros Hi; set_members;
    destruct (decide (x = i)) as [->|]; intuition congruence.
Qed.

Lemma gset_toggle_swap (ids : gset (list N)) (i j : jsstring) (a b : bool) :
  i ≠ j →
  (let ids' := if b then ids ∪ {[j]} else ids ∖ {[j]} in
   if a then ids' ∪ {[i]} else ids' ∖ {[i]})
  = (let ids' := if a then ids ∪ {[i]} else ids ∖ {[i]} in
     if b then ids' ∪ {[j]} else ids' ∖ {[j]}).
Proof.
  intros Hij. destruct a, b; simpl; set_members; intuition congruence.
Qed.

End Toggles.

(** X10: with a session, toggles of bookmarks behave as operations on a
    set: repeating a toggle changes nothing more; bookmarking an id that
    was not bookmarked and then removing it (or removing a bookmarked id
    and then adding it) gives back the set; and toggles of different ids
    can be made in either order. *)
Theorem bookmark_toggles_compose (st : AppState) (i j : jsstring)
    (a b : bool) :
  is_Some (user st) →
  let toggle i a st := step (BookmarkToggle i a) st in
  bookmarkedIds (toggle i a (toggle i a st)) = bookmarkedIds (toggle i a st)
  ∧ (i ∉ bookmarkedIds st →
     bookmarkedIds (toggle i false (toggle i true st)) = bookmarkedIds st)
  ∧ (i ∈ bookmarkedIds st →
     bookmarkedIds (toggle i true (toggle i false st)) = bookmarkedIds st)
  ∧ (i ≠ j →
     bookmarkedIds (toggle i a (toggle j b st))
     = bookmarkedIds (toggle j b (toggle i a st))).
Proof.
  intros Hu. simpl.
  assert (Htwo : ∀ i1 a1 i2 a2,
    bookmarkedIds (step (BookmarkToggle i2 a2) (step (BookmarkToggle i1 a1) st))
    = (let ids' := if a1 then bookmarkedIds st ∪ {[i1]}
                   else bookmarkedIds st ∖ {[i1]} in
       if a2 then ids' ∪ {[i2]} else ids' ∖ {[i2]})).
  { intros i1 a1 i2 a2.
    destruct (toggle_bookmarkedIds i1 a1 st Hu) as [Hb1 Hu1].
    destruct (toggle_bookmarkedIds i2 a2 (step (BookmarkToggle i1 a1) st))
      as [Hb2 _]; [by rewrite Hu1|].
    by rewrite Hb2, Hb1. }
  destruct (toggle_bookmarkedIds i a st Hu) as [Hone _].
  split; [|split; [|split]].
  - rewrite Htwo, Hone. simpl.
    destruct a; apply (gset_toggle_twice (bookmarkedIds st) i).
  - intros Hi. rewrite Htwo. simpl. by apply gset_toggle_undo.
  - intros Hi. rewrite Htwo. simpl. by apply gset_toggle_undo.
  - intros Hij. rewrite !Htwo. by apply gset_toggle_swap.
Qed.

Lemma bookmark_toggles_compose_witness :
  let st := with_session in
  let i := js "acme" in
  let j := js "bolt" in
  let toggle i a st := step (BookmarkToggle i a) st in
  bookmarkedIds (toggle i true (toggle i true st))
  = bookmarkedIds (toggle i true st)
  ∧ (i ∉ bookmarkedIds st →
     bookmarkedIds (toggle i false (toggle i true st)) = bookmarkedIds st)
  ∧ (i ∈ bookmarkedIds st →
     bookmarkedIds (toggle i true (toggle i false st)) = bookmarkedIds st)
  ∧ (i ≠ j →
     bookmarkedIds (toggle i true (toggle j true st))
     = bookmarkedIds (toggle j true (toggle i true st))).
Proof.
  apply (bookmark_toggles_compose with_session (js "acme") (js "bolt")
           true true).
  vm_compute. eexists. reflexivity.
Defined.

(** ** Input in the search bar *)

(** X11: typing in the search bar changes the search filter at once and
    nothing else: while the debounced value has not followed, no request is
    sent and the list, the cursor, [hasMore] and the loading flag are as
    before; the location is kept. *)
Theorem typing_sends_nothing (st : AppState) (s : jsstring) :
  let st' := step (SearchInput s) st in
  filters st' = {| search := s; location := location (filters st) |}
  ∧ debouncedSearch st' = debouncedSearch st
  ∧ inflight st' = inflight st
  ∧ companies st' = companies st
  ∧ cursor st' = cursor st
  ∧ hasMore st' = hasMore st
  ∧ loading st' = loading st.
Proof.
  simpl. pose proof (step_visible_idle (SearchInput s) st) as Hv.
  specialize (Hv eq_refl eq_refl). visible_eqs Hv.
  by rewrite Hfilters, Hdebounced, Hinflight, Hcompanies, Hcursor,
    HhasMore, Hloading.
Qed.

(** X12: choosing the location that is already chosen is no change: the
    filter effect does not run, so nothing is sent and the list, the cursor,
    [hasMore] and the loading flag are as before.  The same holds when the
    debounce timer fires with the search unchanged. *)
Theorem unchanged_filter_sends_nothing (st : AppState) (e : Event) :
  e = LocationInput (location (filters st))
  ∨ (e = DebounceSettled ∧ search (filters st) = debouncedSearch st) →
  let st' := step e st in
  filters st' = filters st
  ∧ debouncedSearch st' = debouncedSearch st
  ∧ inflight st' = inflight st
  ∧ companies st' = companies st
  ∧ cursor st' = cursor st
  ∧ hasMore st' = hasMore st
  ∧ loading st' = loading st.
Proof.
  intros He. simpl. pose proof (step_visible_idle e st) as Hv.
  destruct He as [-> | [-> Hs]].
  - specialize (Hv eq_refl eq_refl). visible_eqs Hv.
    rewrite Hfilters, Hdebounced, Hinflight, Hcompanies, Hcursor,
      HhasMore, Hloading. simpl. by destruct (filters st).
  - assert (Hf : filterDeps (exec (handle DebounceSettled) st)
                 = filterDeps st).
    { unfold filterDeps. simpl. by rewrite Hs. }
    specialize (Hv Hf eq_refl). visible_eqs Hv.
    by rewrite Hfilters, Hdebounced, Hinflight, Hcompanies, Hcursor,
      HhasMore, Hloading.
Qed.

Lemma unchanged_filter_sends_nothing_witness :
  let st := run (shown_first_page ++ [LocationInput (js "Berlin")]) in
  let st' := step (LocationInput (js "Berlin")) st in
  filters st' = filters st
  ∧ debouncedSearch st' = debouncedSearch st
  ∧ inflight st' = inflight st
  ∧ companies st' = companies st
  ∧ cursor st' = cursor st
  ∧ hasMore st' = hasMore st
  ∧ loading st' = loading st.
Proof.
  apply (unchanged_filter_sends_nothing
           (run (shown_first_page ++ [LocationInput (js "Berlin")]))
           (LocationInput (js "Berlin"))).
  left. vm_compute. reflexivity.
Defined.

(** X13: the filter effect compares the location as it is, not trimmed: a
    location that differs from the current one only by white space around
    it still resets the pagination and sends a search that resets the
    list, and that search is for the same query as the current filters. *)
Theorem padded_location_refetches (st : AppState) (l : jsstring) :
  l ≠ location (filters st) →
  trim l = trim (location (filters st)) →
  let st' := step (LocationInput l) st in
  inflight st'
  = inflight st
      ++ [SearchRequest true
            (search_params None (debouncedSearch st)
               (location (filters st)))]
  ∧ cursor st' = None
  ∧ hasMore st' = true
  ∧ loading st' = true
  ∧ companies st' = companies st.
Proof.
  intros Hne Htrim. simpl.
  assert (Hchange : filterDeps (step (LocationInput l) st) ≠ filterDeps st).
  { rewrite step_filterDeps. unfold filterDeps. simpl. congruence. }
  destruct (step_filter_change _ _ Hchange) as [Hv _]. visible_eqs Hv.
  rewrite Hinflight, Hcursor, HhasMore, Hloading, Hcompanies. simpl.
  repeat split. do 2 f_equal.
  unfold search_params, search_object, spread_trimmed. by rewrite Htrim.
Qed.

Lemma padded_location_refetches_witness :
  let st := run (shown_first_page ++ [LocationInput (js "Berlin")]) in
  let st' := step (LocationInput (js "Berlin ")) st in
  inflight st'
  = inflight st
      ++ [SearchRequest true
            (search_params None (debouncedSearch st)
               (location (filters st)))]
  ∧ cursor st' = None
  ∧ hasMore st' = true
  ∧ loading st' = true
  ∧ companies st' = companies st.
Proof.
  apply (padded_location_refetches
           (run (shown_first_page ++ [LocationInput (js "Berlin")]))
           (js "Berlin ")).
  - vm_compute. discriminate.
  - vm_compute. reflexivity.
Defined.

(** ** What the results page shows *)

(** X14: the text of [resultsInfo] is never empty, so its label is
    rendered whenever the results page is; and it speaks of the search
    filter as typed: for a search of white space only it announces results
    for that search while the query of [fetchCompanies] for the same
    filters carries no search parameter. *)
Theorem resultsInfo_label (st : AppState) (currentCursor : option jsstring) :
  let text := resultsInfo (filters st) (length (companies st)) in
  text ≠ []
  ∧ (shows_resultsInfo st = true ↔ currentPage st = home)
  ∧ (search (filters st) ≠ [] →
     forallb is_js_whitespace (search (filters st)) = true →
     (js "Showing results for " ++ [34] ++ search (filters st) ++ [34])
       `prefix_of` text
     ∧ params_get "search"
         (search_params currentCursor (search (filters st))
            (location (filters st))) = None).
Proof.
  simpl.
  assert (Hne : resultsInfo (filters st) (length (companies st)) ≠ []).
  { unfold resultsInfo.
    destruct (truthy (search (filters st)) || truthy (location (filters st)));
      [done|].
    intros Hnil%app_eq_nil. by destruct Hnil. }
  split; [done|split].
  - unfold shows_resultsInfo. destruct (currentPage st); [|done].
    destruct (resultsInfo _ _); done.
  - intros Hs Hws. split.
    + unfold resultsInfo, filterText.
      destruct (search (filters st)) as [|c s] eqn:Hsearch; [done|]. simpl.
      destruct (truthy (location (filters st))); simpl;
        repeat apply prefix_cons;
        rewrite <- ?app_assoc; simpl; rewrite <- ?app_assoc;
        apply prefix_app, prefix_cons;
        eexists; reflexivity.
    + destruct (params_get _ _) as [v|] eqn:Hv; [|done].
      apply search_params_search in Hv as [Hblank Hv].
      by rewrite trim_space in Hblank.
Qed.

Lemma resultsInfo_label_witness :
  let st := step (SearchInput (js "  ")) (run shown_first_page) in
  let text := resultsInfo (filters st) (length (companies st)) in
  (js "Showing results for " ++ [34] ++ search (filters st) ++ [34])
    `prefix_of` text
  ∧ params_get "search"
      (search_params None (search (filters st)) (location (filters st)))
    = None.
Proof.
  apply (proj2 (proj2 (resultsInfo_label
                         (step (SearchInput (js "  ")) (run shown_first_page))
                         None))).
  - vm_compute. discriminate.
  - vm_compute. reflexivity.
Defined.

(** ** Debounced search *)

Section Debounce.

Lemma typing_keeps (typed : list jsstring) (st : AppState) :
  let st' := run_from st (SearchInput <$> typed) in
  debouncedSearch st' = debouncedSearch st
  ∧ location (filters st') = location (filters st)
  ∧ inflight st' = inflight st
  ∧ companies st' = companies st.
Proof.
  revert st. induction typed as [|s typed IH]; intros st; [done|].
  cbv zeta.
  change (run_from st (SearchInput <$> s :: typed))
    with (run_from (step (SearchInput s) st) (SearchInput <$> typed)).
  destruct (IH (step (SearchInput s) st)) as (Hd & Hl & Hi & Hc).
  pose proof (step_visible_idle (SearchInput s) st eq_refl eq_refl) as Hv.
  visible_eqs Hv.
  rewrite Hd, Hl, Hi, Hc, Hdebounced, Hfilters, Hinflight, Hcompanies.
  done.
Qed.

End Debounce.

(** X16: keystrokes are debounced: however many texts are typed before the
    timer fires, nothing is sent for them; when the timer then fires with a
    text that differs from the debounced one, exactly one search is sent,
    with [resetList] true, no cursor, and the last text typed (trimmed by
    the query) as search; the cursor is reset and the list is kept until
    the reply. *)
Theorem debounced_search_fetches_once (st : AppState)
    (typed : list jsstring) (s : jsstring) :
  s ≠ debouncedSearch st →
  let typing := run_from st (SearchInput <$> (typed ++ [s])) in
  let st' := step DebounceSettled typing in
  inflight typing = inflight st
  ∧ debouncedSearch st' = s
  ∧ inflight st'
    = inflight st
        ++ [SearchRequest true
              (search_params None s (location (filters st)))]
  ∧ cursor st' = None
  ∧ hasMore st' = true
  ∧ loading st' = true
  ∧ companies st' = companies st.
Proof.
  intros Hs. simpl. rewrite fmap_app. unfold run_from.
  rewrite foldl_app. simpl.
  fold (run_from st (SearchInput <$> typed)).
  destruct (typing_keeps typed st) as (Hd & Hl & Hi & Hc).
  set (before := run_from st (SearchInput <$> typed)) in *.
  pose proof (step_visible_idle (SearchInput s) before eq_refl eq_refl)
    as Hv.
  set (typing := step (SearchInput s) before) in *.
  assert (Htyped : search (filters typing) = s
                   ∧ location (filters typing) = location (filters st)
                   ∧ debouncedSearch typing = debouncedSearch st
                   ∧ inflight typing = inflight st
                   ∧ companies typing = companies st).
  { visible_eqs Hv. rewrite Hfilters, Hdebounced, Hinflight, Hcompanies.
    simpl. by rewrite Hl, Hd, Hi, Hc. }
  destruct Htyped as (Hts & Htl & Htd & Hti & Htc).
  assert (Hchange : filterDeps (step DebounceSettled typing)
                    ≠ filterDeps typing).
  { rewrite step_filterDeps. unfold filterDeps. simpl.
    rewrite Hts, Htd. congruence. }
  destruct (step_filter_change _ _ Hchange) as [Hv' _]. visible_eqs Hv'.
  rewrite Hdebounced, Hinflight, Hcursor, HhasMore, Hloading, Hcompanies.
  simpl. by rewrite Hts, Htl, Hti, Htc.
Qed.

Lemma debounced_search_fetches_once_witness :
  let st := run shown_first_page in
  let typing :=
    run_from st (SearchInput <$> ([js "a"; js "ac"; js "acm"] ++ [js "acme"]))
  in
  let st' := step DebounceSettled typing in
  inflight typing = inflight st
  ∧ debouncedSearch st' = js "acme"
  ∧ inflight st'
    = inflight st
        ++ [SearchRequest true
              (search_params None (js "acme") (location (filters st)))]
  ∧ cursor st' = None
  ∧ hasMore st' = true
  ∧ loading st' = true
  ∧ companies st' = companies st.
Proof.
  apply (debounced_search_fetches_once (run shown_first_page)
           [js "a"; js "ac"; js "acm"] (js "acme")).
  vm_compute. discriminate.
Defined.

(** ** One scroll at a time *)

Section OneScroll.

Lemma searches_delete_other (l : list Request) k x :
  l !! k = Some x → is_search x = false →
  filter (λ r, is_search r = true) (delete k l)
  = filter (λ r, is_search r = true) l.
Proof.
  intros Hk Hx. rewrite delete_take_drop.
  rewrite <- (take_drop_middle l k x Hk) at 3.
  rewrite !filter_app, filter_cons. by rewrite decide_False by congruence.
Qed.



(** While a search is awaited no handler sends a search, and only the
    reply to a search changes the list, the cursor and [hasMore]. *)
Lemma handle_waiting e st :
  observer_fresh st → loading st = true → is_search_reply e = false →
  searches (exec (handle e) st) = searches st
  ∧ companies (exec (handle e) st) = companies st
  ∧ cursor (exec (handle e) st) = cursor st
  ∧ hasMore (exec (handle e) st) = hasMore st.
Proof.
  unfold searches.
  event_cases e st; intros Hfresh Hl He; try done;
    try (by rewrite (searches_delete_other _ k _ Hk)).
  destruct (Hfresh ob node Hob Htarget) as (Hloading & _). congruence.
Qed.




End OneScroll.




(** ** The messages of the results page *)

Section Messages.

Lemma run_effects_companies prev st :
  companies (exec (run_effects prev) st) = companies st.
Proof. effect_cases st; done. Qed.

Lemma run_from_companies_kept evs st :
  observer_fresh st → loading st = true →
  Forall (λ e, is_search_reply e = false) evs →
  companies (run_from st evs) = companies st.
Proof.
  revert st. induction evs as [|e evs IH]; intros st Hfresh Hl Hevs; [done|].
  inversion Hevs as [|? ? He Hevs']; subst. simpl.
  rewrite IH; [|by apply step_fresh|by apply step_loading|done].
  pose proof (step_visible e st) as Hv. visible_eqs Hv.
  rewrite Hcompanies, run_effects_companies.
  by destruct (handle_waiting e st Hfresh Hl He) as (_ & Hc & _).
Qed.

End Messages.

(** X15: the first render, before any effect has run, shows that no
    companies were found and no loading indicator.  Once the effects of the
    mount have run, and until the first reply to a search, the results page
    shows the loading indicator and neither that message nor the message of
    the end of the results, whatever else happens. *)
Theorem results_page_messages (waiting : list Event) :
  (shows_empty initial = true ∧ shows_loading initial = false
   ∧ shows_end initial = false)
  ∧ (Forall (λ e, is_search_reply e = false) waiting →
     currentPage (run waiting) = home →
     shows_loading (run waiting) = true
     ∧ shows_empty (run waiting) = false
     ∧ shows_end (run waiting) = false).
Proof.
  split; [done|]. intros Hwait Hpage.
  assert (Hl : loading (run waiting) = true)
    by (apply run_from_loading; [by vm_compute|done]).
  assert (Hc : companies (run waiting) = []).
  { unfold run. rewrite run_from_companies_kept; [by vm_compute| |by vm_compute|done].
    apply mounted_fresh. }
  unfold shows_loading, shows_empty, shows_end.
  rewrite Hpage, Hl, Hc. simpl. by rewrite andb_false_r.
Qed.

Lemma results_page_messages_witness :
  let waiting :=
    [SearchInput (js "acme"); Intersect true; LocationInput (js "Berlin")]
  in
  shows_loading (run waiting) = true
  ∧ shows_empty (run waiting) = false
  ∧ shows_end (run waiting) = false.
Proof.
  apply (proj2 (results_page_messages
                  [SearchInput (js "acme"); Intersect true;
                   LocationInput (js "Berlin")])).
  - repeat constructor.
  - vm_compute. reflexivity.
Defined.
